(** * SerialMonitor: the format/escape engine of [serialmonitor.py]

    A shallow embedding of [SerialStream], [SerialWrapper] and [Session]
    (escape handlers, [processEscape], [read]) and the properties of the
    decoding round: cursor/buffer reconciliation, escape dispatch, fixed-width
    renderings and byte-order independence. *)

From Stdlib Require Import ZArith Ascii String Bool Lia List.
From Stdlib Require Import Strings.Byte.
From Stdlib Require Import DecimalString HexString BinaryString.
Import ListNotations.

Local Open Scope string_scope.
Local Open Scope Z_scope.

(* ================================================================== *)
(** ** Python built-ins used by the program *)

Module Py.

(** A [bytes] object. *)
Definition bytes := list byte.

Inductive byte_order := big | little.

Definition byte_val (b : byte) : Z := Z.of_N (Byte.to_N b).

(** [int.from_bytes(b, byteorder=bo)] (unsigned). *)
Definition int_from_bytes (b : bytes) (bo : byte_order) : Z :=
  match bo with
  | big => fold_left (fun acc x => acc * 256 + byte_val x) b 0
  | little => fold_right (fun x acc => byte_val x + 256 * acc) 0 b
  end.

(** [chr(n)]: the program only calls it on the value of one byte; the text
    model has 8-bit characters, code point [n] for [0 <= n < 256]. *)
Definition chr (n : Z) : ascii := ascii_of_N (Z.to_N n).

(** [str(n)] for an integer. *)
Definition str (n : Z) : string := NilZero.string_of_int (Z.to_int n).

(** [bin(n)] and [hex(n)]: ["0b101"], ["-0b101"], ["0x5"], ... *)
Definition bin (n : Z) : string := BinaryString.of_Z n.
Definition hex (n : Z) : string := HexString.of_Z n.

Fixpoint mem (c : ascii) (chars : string) : bool :=
  match chars with
  | EmptyString => false
  | String d chars' => Ascii.eqb c d || mem c chars'
  end.

(** [s.lstrip(chars)]: drop the leading characters that occur in [chars]. *)
Fixpoint lstrip (chars : string) (s : string) : string :=
  match s with
  | EmptyString => EmptyString
  | String c s' => if mem c chars then lstrip chars s' else s
  end.

Fixpoint zeros (n : nat) : string :=
  match n with
  | O => EmptyString
  | S n' => String "0" (zeros n')
  end.

(** [s.zfill(width)]: pad with zeros on the left, after a leading sign. *)
Definition zfill (width : nat) (s : string) : string :=
  let pad := zeros (width - String.length s) in
  match s with
  | String c s' =>
      if Ascii.eqb c "+" || Ascii.eqb c "-" then String c (pad ++ s')
      else pad ++ s
  | EmptyString => pad
  end.

(** [s.split(sep)] for a one-character separator: never the empty list. *)
Fixpoint split (sep : ascii) (s : string) : list string :=
  match s with
  | EmptyString => [EmptyString]
  | String c s' =>
      if Ascii.eqb c sep then EmptyString :: split sep s'
      else match split sep s' with
           | tok :: toks => String c tok :: toks
           | [] => [String c EmptyString]
           end
  end.

(** [l[i]] with Python's negative indices; [None] is [IndexError]. *)
Definition getitem {A} (l : list A) (i : Z) : option A :=
  let n := Z.of_nat (length l) in
  if i <? 0 then
    if i + n <? 0 then None else nth_error l (Z.to_nat (i + n))
  else nth_error l (Z.to_nat i).

(** [l[start:]]; [start] may be [None] or negative. *)
Definition slice_from {A} (l : list A) (start : option Z) : list A :=
  match start with
  | None => l
  | Some i =>
      if i <? 0 then skipn (Z.to_nat (Z.max 0 (Z.of_nat (length l) + i))) l
      else skipn (Z.to_nat i) l
  end.

End Py.

Import Py.

(* ================================================================== *)
(** ** Results and the state/exception monad of a handler *)

(** [IndexError] is Python's, raised by an index below the start of the
    buffer; [RecursionDepth] is the nesting bound of [processEscape_depth],
    which [processEscape] never reaches. *)
Inductive exn := IndexError | RecursionDepth.

Inductive result (A : Type) :=
| Ok (a : A)
| Raise (e : exn).
Arguments Ok {A} a.
Arguments Raise {A} e.

(* ================================================================== *)
(** ** The serial device, [SerialStream] and [SerialWrapper] *)

(** [serial.Serial] as the program uses it: [read()] asks for one byte and
    returns it, or returns [b''] when the (always configured) timeout
    expires.  [None] stands for [b''], [Some b] for the one-byte object.
    The device is the sequence of the results of its successive reads. *)
Definition read1 := option byte.

Definition to_bytes (r : read1) : bytes :=
  match r with
  | None => []
  | Some b => [b]
  end.

Record Serial := mkSerial { incoming : nat -> read1; taken : nat }.

Definition Serial_read (s : Serial) : read1 * Serial :=
  (incoming s (taken s), mkSerial (incoming s) (S (taken s))).

Record SerialStream := mkStream { ptr : Z }.

Record SerialWrapper := mkWrapper { ser : Serial; buf : list read1 }.

Definition push (sw : SerialWrapper) : SerialWrapper :=
  let (byte, ser') := Serial_read (ser sw) in
  mkWrapper ser' (buf sw ++ [byte]).

(** [while index >= len(self.buf): self.push()]; [n] bounds the number of
    iterations and [peek] passes the number of missing elements. *)
Fixpoint peek_loop (n : nat) (index : Z) (sw : SerialWrapper) : SerialWrapper :=
  if index >=? Z.of_nat (length (buf sw)) then
    match n with
    | O => sw
    | S n' => peek_loop n' index (push sw)
    end
  else sw.

(** The number of elements the buffer lacks for [index] to be in range. *)
Definition missing (index : Z) (sw : SerialWrapper) : nat :=
  Z.to_nat (index + 1 - Z.of_nat (length (buf sw))).

Definition peek (index : Z) (sw : SerialWrapper) : result (read1 * SerialWrapper) :=
  let sw' := peek_loop (missing index sw) index sw in
  match getitem (buf sw') index with
  | Some byte => Ok (byte, sw')
  | None => Raise IndexError
  end.

Definition pop (count : option Z) (sw : SerialWrapper) : SerialWrapper :=
  mkWrapper (ser sw) (slice_from (buf sw) count).

Definition getIndex (s : SerialStream) : Z := ptr s.

Definition trim (index : Z) (s : SerialStream) : SerialStream :=
  mkStream (ptr s - index).

(** A handler runs on one stream and the session's wrapper. *)
Definition St := (SerialStream * SerialWrapper)%type.
Definition M (A : Type) := St -> result (A * St).

Definition ret {A} (a : A) : M A := fun st => Ok (a, st).

Definition bind {A B} (m : M A) (k : A -> M B) : M B :=
  fun st =>
    match m st with
    | Ok (a, st') => k a st'
    | Raise e => Raise e
    end.

Notation "x <- m ;; k" := (bind m (fun x => k))
  (at level 61, m at next level, right associativity).

(** [SerialStream.read(sw)] *)
Definition stream_read : M read1 :=
  fun '(s, sw) =>
    match peek (ptr s) sw with
    | Ok (byte, sw') => Ok (byte, (mkStream (ptr s + 1), sw'))
    | Raise e => Raise e
    end.

(* ================================================================== *)
(** ** [Session]: conversions *)

Definition byteToInt (bo : byte_order) (byte : read1) : Z :=
  int_from_bytes (to_bytes byte) bo.

Definition intToBin (integer : Z) : string :=
  zfill 8 (lstrip "0b" (bin integer)).

Definition intToHex (integer : Z) : string :=
  zfill 2 (lstrip "0x" (hex integer)).

(* ================================================================== *)
(** ** [Session]: the escape handlers *)

Inductive EscapeHandler :=
| BinByteEscapeHandler
| HexByteEscapeHandler
| IntegerByteEscapeHandler
| IntegerWordEscapeHandler
| AsciiByteEscapeHandler
| DiscardByteEscapeHandler
| RecursiveByteEscapeHandler
| NewlineEscapeHandler
| TabEscapeHandler.

Definition getChar (h : EscapeHandler) : ascii :=
  match h with
  | BinByteEscapeHandler => "b"
  | HexByteEscapeHandler => "h"
  | IntegerByteEscapeHandler => "i"
  | IntegerWordEscapeHandler => "d"
  | AsciiByteEscapeHandler => "a"
  | DiscardByteEscapeHandler => "x"
  | RecursiveByteEscapeHandler => "e"
  | NewlineEscapeHandler => "n"
  | TabEscapeHandler => "t"
  end%char.

Definition escapeHandlers : list EscapeHandler :=
  [ BinByteEscapeHandler; HexByteEscapeHandler; IntegerByteEscapeHandler;
    IntegerWordEscapeHandler; AsciiByteEscapeHandler; DiscardByteEscapeHandler;
    RecursiveByteEscapeHandler; NewlineEscapeHandler; TabEscapeHandler ].

Definition char_str (c : ascii) : string := String c EmptyString.

Definition newline : string := char_str (ascii_of_nat 10).
Definition tab : string := char_str (ascii_of_nat 9).

(** [h.process(stream, session)]; [processEscape] is the session's
    dispatcher, which the recursive handler calls back. *)
Definition process (bo : byte_order) (processEscape : ascii -> M string)
    (h : EscapeHandler) : M string :=
  match h with
  | BinByteEscapeHandler =>
      byte <- stream_read ;; ret (intToBin (byteToInt bo byte))
  | HexByteEscapeHandler =>
      byte <- stream_read ;; ret (intToHex (byteToInt bo byte))
  | IntegerByteEscapeHandler =>
      byte <- stream_read ;; ret (str (byteToInt bo byte))
  | IntegerWordEscapeHandler =>
      first <- stream_read ;;
      second <- stream_read ;;
      ret (str (Z.lor (Z.shiftl (byteToInt bo first) 8) (byteToInt bo second)))
  | AsciiByteEscapeHandler =>
      byte <- stream_read ;; ret (char_str (chr (byteToInt bo byte)))
  | DiscardByteEscapeHandler =>
      _ <- stream_read ;; ret ""
  | RecursiveByteEscapeHandler =>
      byte <- stream_read ;;
      let resc := chr (byteToInt bo byte) in
      if Ascii.eqb resc (getChar RecursiveByteEscapeHandler) then ret "<RECESC>"
      else processEscape resc
  | NewlineEscapeHandler => ret newline
  | TabEscapeHandler => ret tab
  end.

(** [for h in escapeHandlers: if escape == h.getChar(): return h.process(..)]
    and [return "<BADESC>"] after the loop. *)
Fixpoint dispatch (bo : byte_order) (processEscape : ascii -> M string)
    (hs : list EscapeHandler) (escape : ascii) : M string :=
  match hs with
  | [] => ret "<BADESC>"
  | h :: hs' =>
      if Ascii.eqb escape (getChar h) then process bo processEscape h
      else dispatch bo processEscape hs' escape
  end.

(** [processEscape] and the recursive handler call each other; [depth]
    bounds the nesting of these calls. *)
Fixpoint processEscape_depth (depth : nat) (bo : byte_order) (escape : ascii)
    : M string :=
  match depth with
  | O => fun _ => Raise RecursionDepth
  | S d => dispatch bo (processEscape_depth d bo) escapeHandlers escape
  end.

(** The recursive handler never calls back with its own code, so no call
    nests deeper than two ([processEscape_depth_enough] below). *)
Definition processEscape (bo : byte_order) (escape : ascii) : M string :=
  processEscape_depth 2 bo escape.

(* ================================================================== *)
(** ** [Session] and [Session.read] *)

Record Session := mkSession {
  sw : SerialWrapper;
  escape : ascii;
  byteorder : byte_order;
  formats : list string;
  buffer : bool;
  streams : list SerialStream
}.

(** [Session.__init__] *)
Definition Session_init (sw : SerialWrapper) (escape : ascii) (bo : byte_order)
    (formats : option (list string)) (buffer : bool) : Session :=
  let formats :=
    match formats with
    | Some fs => fs
    | None => [String escape "a"]
    end in
  mkSession sw escape bo formats buffer (map (fun _ => mkStream 0) formats).

(** The body of [for t in toks]. *)
Definition read_token (esc : ascii) (bo : byte_order) (t : string) : M string :=
  match t with
  | String c rest => r <- processEscape bo c ;; ret (r ++ rest)
  | EmptyString => processEscape bo esc
  end.

Fixpoint read_tokens (esc : ascii) (bo : byte_order) (toks : list string)
    : M string :=
  match toks with
  | [] => ret ""
  | t :: toks' =>
      r <- read_token esc bo t ;;
      rs <- read_tokens esc bo toks' ;;
      ret (r ++ rs)
  end.

(** The body of [for f, s in zip(self.formats, self.streams)]. *)
Definition read_format (esc : ascii) (bo : byte_order) (f : string) : M string :=
  let toks := split esc f in
  rs <- read_tokens esc bo (tl toks) ;;
  ret (hd "" toks ++ rs).

(** The loop over [zip(formats, streams)]: the streams share the wrapper;
    a stream without a format is left as it is. *)
Fixpoint read_formats (esc : ascii) (bo : byte_order) (fs : list string)
    (ss : list SerialStream) (w : SerialWrapper)
    : result (string * (list SerialStream * SerialWrapper)) :=
  match fs, ss with
  | f :: fs', s :: ss' =>
      match read_format esc bo f (s, w) with
      | Ok (r, (s', w')) =>
          match read_formats esc bo fs' ss' w' with
          | Ok (rs, (ss'', w'')) => Ok (r ++ rs, (s' :: ss'', w''))
          | Raise e => Raise e
          end
      | Raise e => Raise e
      end
  | _, _ => Ok ("", (ss, w))
  end.

(** [minInd] / [maxInd] after their loops; [None] when there is no stream. *)
Definition minInd (ss : list SerialStream) : option Z :=
  fold_left (fun m s =>
               match m with
               | None => Some (getIndex s)
               | Some v => if v >? getIndex s then Some (getIndex s) else Some v
               end) ss None.

Definition maxInd (ss : list SerialStream) : option Z :=
  fold_left (fun m s =>
               match m with
               | None => Some (getIndex s)
               | Some v => if v <? getIndex s then Some (getIndex s) else Some v
               end) ss None.

(** The reconciliation at the end of [read].  In buffered mode [trim] is
    called once per stream, so not at all when [minInd] is still [None]. *)
Definition reconcile (buffered : bool) (ss : list SerialStream)
    (w : SerialWrapper) : list SerialStream * SerialWrapper :=
  if buffered then
    let m := minInd ss in
    let ss' := match m with
               | Some v => map (trim v) ss
               | None => ss
               end in
    (ss', pop m w)
  else
    let m := maxInd ss in
    (map (fun s => trim (getIndex s) s) ss, pop m w).

Definition read (se : Session) : result (string * Session) :=
  match read_formats (escape se) (byteorder se) (formats se) (streams se) (sw se) with
  | Ok (text, (ss, w)) =>
      let (ss', w') := reconcile (buffer se) ss w in
      Ok (text, mkSession w' (escape se) (byteorder se) (formats se) (buffer se) ss')
  | Raise e => Raise e
  end.

(** [n] successive rounds of the main loop: the chunks written, in order. *)
Fixpoint rounds (n : nat) (se : Session) : result (list string * Session) :=
  match n with
  | O => Ok ([], se)
  | S n' =>
      match read se with
      | Ok (line, se') =>
          match rounds n' se' with
          | Ok (ls, se'') => Ok (line :: ls, se'')
          | Raise e => Raise e
          end
      | Raise e => Raise e
      end
  end.

(* ================================================================== *)
(** ** Auxiliary notions for the statements *)

(** The buffer's length, as Python's [len(self.buf)]. *)
Definition len (w : SerialWrapper) : Z := Z.of_nat (length (buf w)).

(** The wrapper after [k] more reads of the device, all appended. *)
Definition pulled (w : SerialWrapper) (k : nat) : list read1 :=
  map (incoming (ser w)) (seq (taken (ser w)) k).

Definition advance (w : SerialWrapper) (k : nat) : SerialWrapper :=
  mkWrapper (mkSerial (incoming (ser w)) (taken (ser w) + k)) (buf w ++ pulled w k).

(** The greatest offset of a list of cursors (0 when there is none). *)
Definition max_ptr (ss : list SerialStream) : Z :=
  fold_right (fun s m => Z.max (ptr s) m) 0 ss.

Definition or0 (m : option Z) : Z :=
  match m with
  | Some v => v
  | None => 0
  end.

(** Total correctness of a handler from a non-negative cursor: it returns,
    the cursor does not move back, the wrapper only pulls new reads, and a
    cursor that was within the buffer ends within it, the buffer having
    grown only as far as the cursor went. *)
Definition good {A} (m : M A) : Prop :=
  forall s w, 0 <= ptr s ->
    exists a s' k,
      m (s, w) = Ok (a, (s', advance w k)) /\
      ptr s <= ptr s' /\
      (ptr s <= len w -> len (advance w k) = Z.max (len w) (ptr s')).

(** Two wrappers that hold the same buffer and whose devices return the
    same reads from now on; what the devices returned before may differ. *)
Definition sim (w w' : SerialWrapper) : Prop :=
  buf w = buf w' /\
  taken (ser w) = taken (ser w') /\
  forall i, (taken (ser w) <= i)%nat -> incoming (ser w) i = incoming (ser w') i.

Definition res_rel {A S} (R : S -> S -> Prop) (r r' : result (A * S)) : Prop :=
  match r, r' with
  | Ok (a, s), Ok (a', s') => a = a' /\ R s s'
  | Raise e, Raise e' => e = e'
  | _, _ => False
  end.

Definition st_sim (st st' : St) : Prop :=
  fst st = fst st' /\ sim (snd st) (snd st').

(** Two handlers that cannot be told apart from such wrappers. *)
Definition equiv {A} (m m' : M A) : Prop :=
  forall st st', st_sim st st' -> res_rel st_sim (m st) (m' st').

Definition ss_sim (p p' : list SerialStream * SerialWrapper) : Prop :=
  fst p = fst p' /\ sim (snd p) (snd p').

(** Sessions equal up to the byte order and the device's past. *)
Definition se_sim (se se' : Session) : Prop :=
  escape se = escape se' /\ formats se = formats se' /\
  buffer se = buffer se' /\ streams se = streams se' /\
  sim (sw se) (sw se').

(** The chunks a run of rounds wrote. *)
Definition lines_of {S} (r : result (list string * S)) : result (list string) :=
  match r with
  | Ok (ls, _) => Ok ls
  | Raise e => Raise e
  end.

(** The session with another device behind it, read as often. *)
Definition with_incoming (inc : nat -> read1) (se : Session) : Session :=
  mkSession (mkWrapper (mkSerial inc (taken (ser (sw se)))) (buf (sw se)))
            (escape se) (byteorder se) (formats se) (buffer se) (streams se).

(** What each cursor consumed in a round, and the gap between the most
    and the least, summed over the rounds of a run. *)
Definition consumed (before after : list SerialStream) : list Z :=
  map (fun p => ptr (snd p) - ptr (fst p)) (combine before after).

Definition spread (l : list Z) : Z :=
  match l with
  | [] => 0
  | x :: l' => fold_left Z.max l' x - fold_left Z.min l' x
  end.

Fixpoint history_spread (n : nat) (se : Session) : Z :=
  match n with
  | O => 0
  | S n' =>
      match read_formats (escape se) (byteorder se) (formats se) (streams se) (sw se),
            read se with
      | Ok (_, (ss, _)), Ok (_, se') =>
          spread (consumed (streams se) ss) + history_spread n' se'
      | _, _ => 0
      end
  end.

(** A device that returns the reads of [l], then times out for ever, and
    the wrapper newly opened on it ([SerialWrapper.__init__]). *)
Definition device (l : list read1) : nat -> read1 := fun n => nth n l None.

Definition fresh (l : list read1) : SerialWrapper :=
  mkWrapper (mkSerial (device l) 0) [].

(** Fixed-width check of both renderings of one value, and that the digits
    denote the value. *)
Definition rendering_ok (n : nat) : bool :=
  let z := Z.of_nat n in
  Nat.eqb (String.length (intToHex z)) 2 &&
  Nat.eqb (String.length (intToBin z)) 8 &&
  N.eqb (HexString.Raw.to_N (intToHex z) 0) (N.of_nat n) &&
  N.eqb (BinaryString.Raw.to_N (intToBin z) 0) (N.of_nat n).



(** The number of [stream.read] calls in the body of a handler's
    [process]; the recursive handler may make more through its call-back. *)
Definition width (h : EscapeHandler) : Z :=
  match h with
  | IntegerWordEscapeHandler => 2
  | NewlineEscapeHandler | TabEscapeHandler => 0
  | _ => 1
  end.

(** From a non-negative cursor the handler returns, having moved the cursor
    by exactly [n]. *)
Definition advances {A} (n : Z) (m : M A) : Prop :=
  forall s w, 0 <= ptr s ->
    exists a k,
      m (s, w) = Ok (a, (mkStream (ptr s + n), advance w k)) /\
      (ptr s <= len w -> len (advance w k) = Z.max (len w) (ptr s + n)).

(** From a non-negative cursor the handler returns, having moved the cursor
    by at most [n]. *)
Definition within {A} (n : Z) (m : M A) : Prop :=
  forall s w, 0 <= ptr s ->
    exists a s' k,
      m (s, w) = Ok (a, (s', advance w k)) /\
      ptr s <= ptr s' <= ptr s + n /\
      (ptr s <= len w -> len (advance w k) = Z.max (len w) (ptr s')).

(** The number of device reads already dropped from the head of the buffer,
    and the number of the device read a cursor is at. *)
Definition base (w : SerialWrapper) : nat := taken (ser w) - length (buf w).

Definition position (w : SerialWrapper) (s : SerialStream) : Z :=
  Z.of_nat (base w) + ptr s.

(** The buffer holds the last reads of the device, in their order. *)
Definition window (w : SerialWrapper) : Prop :=
  (length (buf w) <= taken (ser w))%nat /\
  buf w = map (incoming (ser w)) (seq (base w) (length (buf w))).

(** The session after the reconciliation of a round whose formats left the
    cursors [ss] and the wrapper [w]. *)
Definition reconciled (se : Session) (ss : list SerialStream)
    (w : SerialWrapper) : Session :=
  mkSession
    (pop (if buffer se then minInd ss else maxInd ss) w)
    (escape se) (byteorder se) (formats se) (buffer se)
    (if buffer se then map (fun s => mkStream (ptr s - or0 (minInd ss))) ss
     else map (fun _ => mkStream 0) ss).

(** The session with another buffering flag. *)
Definition with_buffer (b : bool) (se : Session) : Session :=
  mkSession (sw se) (escape se) (byteorder se) (formats se) b (streams se).

(** [collections.deque(maxlen=...)] as [main] uses it for the history:
    [append] on a full deque discards the oldest item; [extend] appends the
    items of its argument, the characters of a string, one by one. *)
Definition deque_append (maxlen : nat) (d : list ascii) (x : ascii) : list ascii :=
  if Nat.eqb maxlen 0 then d
  else if Nat.ltb (length d) maxlen then d ++ [x]
  else tl d ++ [x].

Definition deque_extend (maxlen : nat) (d : list ascii) (line : string)
    : list ascii :=
  fold_left (deque_append maxlen) (list_ascii_of_string line) d.

(** The history of [main] after its loop has written [lines]:
    [history = deque([], maxlen=omax)] and [history.extend(line)] per round. *)
Definition history_of (omax : nat) (lines : list string) : list ascii :=
  fold_left (deque_extend omax) lines [].

(** The last [n] elements of a list. *)
Definition lastn {A} (n : nat) (l : list A) : list A :=
  skipn (length l - n) l.

(** Two cursors, each on a window of the same device, at the same position. *)
Definition same_pos (st st' : St) : Prop :=
  window (snd st) /\ window (snd st') /\
  incoming (ser (snd st)) = incoming (ser (snd st')) /\
  0 <= ptr (fst st) /\ 0 <= ptr (fst st') /\
  position (snd st) (fst st) = position (snd st') (fst st').

(** From two such cursors the handler returns the same text, having moved
    both by the same distance and only pulled reads on either side. *)
Definition par {A} (m : M A) : Prop :=
  forall s w s' w', same_pos (s, w) (s', w') ->
    exists a s1 k s1' k',
      m (s, w) = Ok (a, (s1, advance w k)) /\
      m (s', w') = Ok (a, (s1', advance w' k')) /\
      ptr s <= ptr s1 /\
      ptr s1 - ptr s = ptr s1' - ptr s'.

(** The text of a result (nothing when it is an exception). *)
Definition text_of {S} (r : result (string * S)) : string :=
  match r with
  | Ok (text, _) => text
  | Raise _ => ""
  end.

(** Chunk by chunk concatenation of two runs. *)
Definition merge (ls ls' : list string) : list string :=
  map (fun p => (fst p ++ snd p)%string) (combine ls ls').

(** A buffered session in a state that a new session reaches: the buffer a
    window of the device, every cursor between 0 and its length. *)
Definition well (se : Session) : Prop :=
  buffer se = true /\ window (sw se) /\
  Forall (fun s => 0 <= ptr s <= len (sw se)) (streams se).

(** [S] runs the first format of [M] and [T] the others, on the same
    device, every cursor at the position of its cursor in [M]. *)
Definition split_off (M S T : Session) : Prop :=
  well M /\ well S /\ well T /\
  escape S = escape M /\ escape T = escape M /\
  byteorder S = byteorder M /\ byteorder T = byteorder M /\
  incoming (ser (sw S)) = incoming (ser (sw M)) /\
  incoming (ser (sw T)) = incoming (ser (sw M)) /\
  exists f fs s ss sS,
    formats M = f :: fs /\ formats S = [f] /\ formats T = fs /\
    streams M = s :: ss /\ streams S = [sS] /\
    position (sw M) s = position (sw S) sS /\
    Forall2 (fun x xT => position (sw M) x = position (sw T) xT)
            ss (streams T).

(** Checks over all byte values, run once by computation: the word handler's
    shift-and-or is 256 * first + second, and decimal texts are short. *)
Fixpoint all_from (ok : Z -> bool) (count : nat) (z : Z) : bool :=
  match count with
  | O => true
  | S c => ok z && all_from ok c (z + 1)
  end.

Definition word_ok (a b : Z) : bool :=
  Z.eqb (Z.lor (Z.shiftl a 8) b) (256 * a + b).

Definition str_ok (bound : nat) (n : Z) : bool :=
  let k := String.length (str n) in
  Nat.leb 1 k && Nat.leb k bound.

(** The length of the text a handler returns: exact for b, h, a, x, n and
    t, between bounds for the decimal handlers; none is promised for the
    recursive handler, whose text is another handler's. *)
Definition text_width_ok (h : EscapeHandler) (text : string) : Prop :=
  let k := String.length text in
  match h with
  | BinByteEscapeHandler => k = 8%nat
  | HexByteEscapeHandler => k = 2%nat
  | IntegerByteEscapeHandler => (1 <= k <= 3)%nat
  | IntegerWordEscapeHandler => (1 <= k <= 5)%nat
  | AsciiByteEscapeHandler => k = 1%nat
  | DiscardByteEscapeHandler => k = 0%nat
  | RecursiveByteEscapeHandler => True
  | NewlineEscapeHandler => k = 1%nat
  | TabEscapeHandler => k = 1%nat
  end.

(* ================================================================== *)
(** ** The wrapper: [push], [peek], [pop] *)

Section Wrapper.

Lemma len_nonneg w : 0 <= len w.
Proof. unfold len. lia. Qed.

Lemma advance_0 w : advance w 0 = w.
Proof.
  destruct w as [[inc t] b]. unfold advance, pulled. simpl.
  now rewrite Nat.add_0_r, app_nil_r.
Qed.

Lemma push_advance w : push w = advance w 1.
Proof.
  destruct w as [[inc t] b]. unfold push, advance, pulled. simpl.
  now rewrite Nat.add_1_r.
Qed.

Lemma advance_advance w a b : advance (advance w a) b = advance w (a + b).
Proof.
  destruct w as [[inc t] bf]. unfold advance, pulled. simpl.
  rewrite seq_app, map_app, app_assoc, Nat.add_assoc. reflexivity.
Qed.

Lemma len_advance w k : len (advance w k) = len w + Z.of_nat k.
Proof.
  unfold len, advance, pulled. simpl.
  rewrite length_app, length_map, length_seq. lia.
Qed.

(** The loop of [peek] pulls exactly the missing elements, and no bound on
    its iterations at or above that number changes its result. *)
Lemma peek_loop_advance n : forall index w,
  (missing index w <= n)%nat ->
  peek_loop n index w = advance w (missing index w).
Proof.
  induction n as [|n IH]; intros index w Hn; simpl;
    destruct (index >=? Z.of_nat (length (buf w))) eqn:E.
  - unfold missing in Hn. lia.
  - replace (missing index w) with 0%nat by (unfold missing; lia).
    now rewrite advance_0.
  - rewrite IH.
    + rewrite push_advance, advance_advance. f_equal.
      unfold missing. fold (len (advance w 1)). rewrite len_advance.
      unfold len. lia.
    + rewrite push_advance. unfold missing in *.
      fold (len (advance w 1)). rewrite len_advance. unfold len. lia.
  - replace (missing index w) with 0%nat by (unfold missing; lia).
    now rewrite advance_0.
Qed.

(** On exit the loop condition is false. *)
Lemma peek_loop_exit index w :
  index < len (peek_loop (missing index w) index w).
Proof.
  rewrite peek_loop_advance by lia. rewrite len_advance.
  unfold missing, len. lia.
Qed.

Lemma peek_nonneg index w :
  0 <= index ->
  exists byte,
    peek index w = Ok (byte, advance w (missing index w)) /\
    nth_error (buf (advance w (missing index w))) (Z.to_nat index) = Some byte.
Proof.
  intros Hi. unfold peek. rewrite peek_loop_advance by lia.
  unfold getitem. destruct (index <? 0) eqn:E; [lia|].
  destruct (nth_error (buf (advance w (missing index w))) (Z.to_nat index))
    as [byte|] eqn:Hn.
  - exists byte. split; reflexivity.
  - apply nth_error_None in Hn.
    pose proof (len_advance w (missing index w)) as Hl.
    unfold len, missing in *. lia.
Qed.

Lemma pop_within m w :
  0 <= m <= len w ->
  buf (pop (Some m) w) = skipn (Z.to_nat m) (buf w) /\
  len (pop (Some m) w) = len w - m /\
  ser (pop (Some m) w) = ser w.
Proof.
  intros Hm. unfold pop, len, slice_from in *. simpl.
  destruct (m <? 0) eqn:E; [lia|].
  rewrite length_skipn. repeat split. lia.
Qed.

Lemma pop_None w : pop None w = w.
Proof. now destruct w. Qed.

End Wrapper.

(* ================================================================== *)
(** ** Handlers return and keep the cursor within the buffer *)

Section Good.

Variable bo : byte_order.

Lemma good_ret {A} (a : A) : good (ret a).
Proof.
  intros s w Hs. exists a, s, 0%nat. rewrite advance_0.
  repeat split; lia.
Qed.

Lemma good_bind {A B} (m : M A) (k : A -> M B) :
  good m -> (forall a, good (k a)) -> good (bind m k).
Proof.
  intros Hm Hk s w Hs.
  destruct (Hm s w Hs) as (a & s1 & k1 & E1 & Hp1 & Hl1).
  destruct (Hk a s1 (advance w k1) ltac:(lia)) as (b & s2 & k2 & E2 & Hp2 & Hl2).
  exists b, s2, (k1 + k2)%nat. unfold bind. rewrite E1, E2.
  rewrite advance_advance in *. split; [reflexivity|]. split; [lia|].
  intros Hw. specialize (Hl1 Hw). lia.
Qed.

Lemma good_stream_read : good stream_read.
Proof.
  intros s w Hs. unfold stream_read.
  destruct (peek_nonneg (ptr s) w Hs) as (byte & E & _). rewrite E.
  exists byte, (mkStream (ptr s + 1)), (missing (ptr s) w).
  repeat split; simpl; try lia.
  intros Hw. rewrite len_advance. unfold missing, len in *. lia.
Qed.

#[local] Hint Resolve good_ret good_stream_read : core.

Lemma good_process_plain cb h :
  h <> RecursiveByteEscapeHandler -> good (process bo cb h).
Proof.
  intros Hh. destruct h; try congruence; simpl;
    repeat (apply good_bind; [auto | intros ?]); auto.
Qed.

Lemma good_process cb h :
  (forall c, c <> getChar RecursiveByteEscapeHandler -> good (cb c)) ->
  good (process bo cb h).
Proof.
  intros Hcb. destruct h; try (apply good_process_plain; congruence).
  simpl. apply good_bind; [auto | intros byte].
  destruct (Ascii.eqb _ _) eqn:E; [auto|].
  apply Hcb. now apply Ascii.eqb_neq.
Qed.

Lemma good_dispatch cb hs c :
  (forall h, In h hs -> getChar h = c -> good (process bo cb h)) ->
  good (dispatch bo cb hs c).
Proof.
  induction hs as [|h hs IH]; intros H; simpl; [auto|].
  destruct (Ascii.eqb c (getChar h)) eqn:E.
  - apply H; [now left|]. symmetry. now apply Ascii.eqb_eq.
  - apply IH. intros h' Hin. apply H. now right.
Qed.

Lemma processEscape_depth_S d c :
  processEscape_depth (S d) bo c =
  dispatch bo (processEscape_depth d bo) escapeHandlers c.
Proof. reflexivity. Qed.

(** One level suffices for every code but the recursive handler's. *)
Lemma good_processEscape_1 c :
  c <> getChar RecursiveByteEscapeHandler ->
  good (processEscape_depth 1 bo c).
Proof.
  intros Hc. rewrite processEscape_depth_S. apply good_dispatch. intros h _ Hh.
  apply good_process_plain. congruence.
Qed.

Lemma good_processEscape c : good (processEscape bo c).
Proof.
  unfold processEscape. rewrite processEscape_depth_S.
  apply good_dispatch. intros h _ _.
  apply good_process. intros c' Hc'. now apply good_processEscape_1.
Qed.

Lemma good_read_token esc t : good (read_token esc bo t).
Proof.
  destruct t; simpl; [apply good_processEscape|].
  apply good_bind; [apply good_processEscape | auto].
Qed.

Lemma good_read_tokens esc toks : good (read_tokens esc bo toks).
Proof.
  induction toks as [|t toks IH]; simpl; [auto|].
  apply good_bind; [apply good_read_token | intros r].
  apply good_bind; [exact IH | auto].
Qed.

Lemma good_read_format esc f : good (read_format esc bo f).
Proof.
  unfold read_format. apply good_bind; [apply good_read_tokens | auto].
Qed.

End Good.

(* ================================================================== *)
(** ** The nesting of [processEscape] is at most two *)

Section Depth.

Variable bo : byte_order.

Lemma process_plain_cb cb1 cb2 h :
  h <> RecursiveByteEscapeHandler -> process bo cb1 h = process bo cb2 h.
Proof. destruct h; congruence || reflexivity. Qed.

Lemma process_cb_ext cb1 cb2 h st :
  (forall c st', c <> getChar RecursiveByteEscapeHandler -> cb1 c st' = cb2 c st') ->
  process bo cb1 h st = process bo cb2 h st.
Proof.
  intros H. destruct h; try reflexivity. simpl. unfold bind.
  destruct (stream_read st) as [[byte st']|e]; [|reflexivity].
  destruct (Ascii.eqb _ _) eqn:E; [reflexivity|].
  apply H. now apply Ascii.eqb_neq.
Qed.

Lemma dispatch_cb_ext cb1 cb2 hs c st :
  (forall c st', c <> getChar RecursiveByteEscapeHandler -> cb1 c st' = cb2 c st') ->
  dispatch bo cb1 hs c st = dispatch bo cb2 hs c st.
Proof.
  intros H. induction hs as [|h hs IH]; simpl; [reflexivity|].
  destruct (Ascii.eqb c (getChar h)); [now apply process_cb_ext | exact IH].
Qed.

Lemma dispatch_plain cb1 cb2 hs c st :
  c <> getChar RecursiveByteEscapeHandler ->
  dispatch bo cb1 hs c st = dispatch bo cb2 hs c st.
Proof.
  intros Hc. induction hs as [|h hs IH]; simpl; [reflexivity|].
  destruct (Ascii.eqb c (getChar h)) eqn:E; [|exact IH].
  apply Ascii.eqb_eq in E. rewrite (process_plain_cb cb1 cb2); [reflexivity|].
  congruence.
Qed.

(** Any bound of at least two gives the result of [processEscape]. *)
Lemma processEscape_depth_enough d c st :
  (2 <= d)%nat -> processEscape_depth d bo c st = processEscape bo c st.
Proof.
  intros Hd. destruct d as [|[|d]]; try lia.
  unfold processEscape. rewrite !processEscape_depth_S.
  apply dispatch_cb_ext. intros c' st' Hc'.
  rewrite !processEscape_depth_S. now apply dispatch_plain.
Qed.

End Depth.

(* ================================================================== *)
(** ** Greatest and least cursor offsets *)

Section Offsets.

Lemma max_ptr_nonneg ss : 0 <= max_ptr ss.
Proof. induction ss; simpl; lia. Qed.

Lemma max_ptr_ge ss : Forall (fun s => ptr s <= max_ptr ss) ss.
Proof.
  induction ss as [|s ss IH]; constructor; simpl; [lia|].
  eapply Forall_impl; [|exact IH]. simpl. intros. lia.
Qed.

Lemma max_ptr_le ss b :
  0 <= b -> Forall (fun s => ptr s <= b) ss -> max_ptr ss <= b.
Proof. intros Hb H. induction H; simpl; lia. Qed.

Lemma max_ptr_In ss : ss <> [] -> Forall (fun s => 0 <= ptr s) ss ->
  In (max_ptr ss) (map ptr ss).
Proof.
  induction ss as [|s ss IH]; [congruence|]. intros _ H. inversion H; subst.
  simpl. destruct ss as [|s' ss].
  - left. simpl. lia.
  - destruct (Z.max_spec (ptr s) (max_ptr (s' :: ss))) as [[_ E]|[_ E]];
      rewrite E; [right; apply IH; [congruence | assumption] | now left].
Qed.

Lemma max_ptr_mono ss ss' :
  Forall2 (fun s s' => ptr s <= ptr s') ss ss' -> max_ptr ss <= max_ptr ss'.
Proof. induction 1; simpl; lia. Qed.

Lemma maxInd_cons s ss :
  maxInd (s :: ss) = Some (fold_left Z.max (map ptr ss) (ptr s)).
Proof.
  unfold maxInd, getIndex. simpl. generalize (ptr s).
  induction ss as [|a ss IH]; intros z; simpl; [reflexivity|].
  destruct (z <? ptr a) eqn:E; rewrite IH; do 2 f_equal; lia.
Qed.

Lemma minInd_cons s ss :
  minInd (s :: ss) = Some (fold_left Z.min (map ptr ss) (ptr s)).
Proof.
  unfold minInd, getIndex. simpl. generalize (ptr s).
  induction ss as [|a ss IH]; intros z; simpl; [reflexivity|].
  destruct (z >? ptr a) eqn:E; rewrite IH; do 2 f_equal; lia.
Qed.

Lemma fold_max_ptr ss : forall a,
  0 <= a -> fold_left Z.max (map ptr ss) a = Z.max a (max_ptr ss).
Proof.
  induction ss as [|s ss IH]; intros a Ha; simpl; [lia|].
  rewrite IH by lia. lia.
Qed.

(** [maxInd] is the greatest offset. *)
Lemma maxInd_max_ptr ss :
  Forall (fun s => 0 <= ptr s) ss ->
  maxInd ss = match ss with [] => None | _ => Some (max_ptr ss) end.
Proof.
  destruct ss as [|s ss]; [reflexivity|]. intros H. inversion H; subst.
  rewrite maxInd_cons, fold_max_ptr by assumption. reflexivity.
Qed.

Lemma or0_maxInd ss :
  Forall (fun s => 0 <= ptr s) ss -> or0 (maxInd ss) = max_ptr ss.
Proof.
  intros H. rewrite maxInd_max_ptr by assumption. now destruct ss.
Qed.

Lemma fold_min_spec l : forall a,
  fold_left Z.min l a <= a /\
  Forall (fun x => fold_left Z.min l a <= x) l /\
  (fold_left Z.min l a = a \/ In (fold_left Z.min l a) l).
Proof.
  induction l as [|x l IH]; intros a; simpl.
  - repeat split; [lia | constructor | now left].
  - destruct (IH (Z.min a x)) as (H1 & H2 & H3). repeat split.
    + lia.
    + constructor; [lia | exact H2].
    + destruct H3 as [H3|H3]; [|now right; right].
      destruct (Z.min_spec a x) as [[_ E]|[_ E]]; rewrite E in *.
      * now left.
      * right. left. now rewrite H3.
Qed.

(** [minInd] is the least offset: below every cursor and one of them. *)
Lemma minInd_spec ss :
  ss <> [] ->
  exists m, minInd ss = Some m /\
            Forall (fun s => m <= ptr s) ss /\ In m (map ptr ss).
Proof.
  destruct ss as [|s ss]; [congruence|]. intros _.
  rewrite minInd_cons. eexists. split; [reflexivity|].
  destruct (fold_min_spec (map ptr ss) (ptr s)) as (H1 & H2 & H3). split.
  - constructor; [exact H1|].
    rewrite Forall_map in H2. exact H2.
  - simpl. destruct H3 as [H3|H3]; [left; now rewrite H3 | now right].
Qed.

Lemma max_ptr_trim m ss :
  0 <= m -> Forall (fun s => m <= ptr s) ss ->
  max_ptr (map (trim m) ss) = Z.max 0 (max_ptr ss - m).
Proof.
  intros Hm H. induction H as [|s ss Hs H IH]; simpl; [lia|].
  rewrite IH. lia.
Qed.

End Offsets.

(* ================================================================== *)
(** ** A round returns: the loop over the formats and the reconciliation *)

Section Round.

Variables (esc : ascii) (bo : byte_order).

Lemma Forall2_ptr_nonneg ss ss' :
  Forall (fun s => 0 <= ptr s) ss ->
  Forall2 (fun s s' => ptr s <= ptr s') ss ss' ->
  Forall (fun s => 0 <= ptr s) ss'.
Proof.
  intros H H2. induction H2; inversion H; subst; constructor; auto. lia.
Qed.

Lemma Forall2_ptr_refl ss : Forall2 (fun s s' : SerialStream => ptr s <= ptr s') ss ss.
Proof. induction ss; constructor; auto. lia. Qed.

Lemma read_formats_good fs : forall ss w,
  Forall (fun s => 0 <= ptr s) ss ->
  exists text ss' k,
    read_formats esc bo fs ss w = Ok (text, (ss', advance w k)) /\
    Forall2 (fun s s' => ptr s <= ptr s') ss ss' /\
    (Forall (fun s => ptr s <= len w) ss ->
     len (advance w k) = Z.max (len w) (max_ptr ss')).
Proof.
  induction fs as [|f fs IH]; intros ss w Hss.
  - exists "", ss, 0%nat. rewrite advance_0. simpl.
    split; [now destruct ss|]. split; [apply Forall2_ptr_refl|].
    intros Hw. pose proof (max_ptr_le ss (len w) (len_nonneg w) Hw). lia.
  - destruct ss as [|s ss].
    + exists "", [], 0%nat. rewrite advance_0. simpl.
      repeat split; [constructor|]. pose proof (len_nonneg w). lia.
    + inversion Hss as [|? ? Hs Hss']; subst.
      destruct (good_read_format bo esc f s w Hs) as (r & s1 & k1 & E1 & Hp1 & Hl1).
      destruct (IH ss (advance w k1) Hss') as (rs & ss1 & k2 & E2 & Hp2 & Hl2).
      exists (r ++ rs)%string, (s1 :: ss1), (k1 + k2)%nat.
      simpl. rewrite E1, E2, advance_advance.
      split; [reflexivity|]. split; [now constructor|].
      intros Hw. inversion Hw as [|? ? Hws Hwss]; subst.
      specialize (Hl1 Hws). rewrite advance_advance in Hl2.
      rewrite Hl2.
      * simpl. lia.
      * eapply Forall_impl; [|exact Hwss]. simpl. intros. lia.
Qed.

Lemma map_trim_self ss :
  map (fun s => trim (getIndex s) s) ss = map (fun _ => mkStream 0) ss.
Proof.
  apply map_ext. intros s. unfold trim, getIndex. now rewrite Z.sub_diag.
Qed.

(** [read] is the loop over the formats followed by the reconciliation. *)
Lemma read_unfold se text ss w :
  read_formats (escape se) (byteorder se) (formats se) (streams se) (sw se)
    = Ok (text, (ss, w)) ->
  read se = Ok (text, mkSession (snd (reconcile (buffer se) ss w))
                                (escape se) (byteorder se) (formats se)
                                (buffer se) (fst (reconcile (buffer se) ss w))).
Proof.
  intros E. unfold read. rewrite E.
  now destruct (reconcile (buffer se) ss w).
Qed.

(** Reconciliation keeps the cursors non-negative and within the buffer. *)
Lemma reconcile_bounds buffered ss w :
  Forall (fun s => 0 <= ptr s) ss ->
  Forall (fun s => 0 <= ptr s) (fst (reconcile buffered ss w)) /\
  (Forall (fun s => ptr s <= len w) ss ->
   Forall (fun s => ptr s <= len (snd (reconcile buffered ss w)))
          (fst (reconcile buffered ss w))).
Proof.
  intros Hss. destruct buffered; simpl.
  - destruct ss as [|s0 ss0] eqn:Ess; [simpl; split; auto|].
    rewrite <- Ess in *.
    destruct (minInd_spec ss ltac:(congruence)) as (m & Em & Hm & Hin).
    rewrite Em. simpl.
    assert (H0 : 0 <= m).
    { apply in_map_iff in Hin. destruct Hin as (s & <- & Hin).
      rewrite Forall_forall in Hss. now apply Hss. }
    split.
    + rewrite Forall_map. eapply Forall_impl; [|exact Hm].
      simpl. intros. lia.
    + intros Hw.
      assert (Hml : m <= len w).
      { apply in_map_iff in Hin. destruct Hin as (s & <- & Hin).
        rewrite Forall_forall in Hw. now apply Hw. }
      destruct (pop_within m w ltac:(lia)) as (_ & -> & _).
      rewrite Forall_map. eapply Forall_impl; [|exact Hw].
      simpl. intros. lia.
  - rewrite map_trim_self. split.
    + rewrite Forall_map. apply Forall_forall. simpl. intros. lia.
    + intros _. rewrite Forall_map. apply Forall_forall. simpl. intros.
      apply len_nonneg.
Qed.

End Round.

(** A round from non-negative cursors returns, with non-negative cursors;
    cursors within the buffer stay within it. *)
Lemma read_ok se :
  Forall (fun s => 0 <= ptr s) (streams se) ->
  exists text se',
    read se = Ok (text, se') /\
    escape se' = escape se /\ byteorder se' = byteorder se /\
    formats se' = formats se /\ buffer se' = buffer se /\
    Forall (fun s => 0 <= ptr s) (streams se') /\
    (Forall (fun s => ptr s <= len (sw se)) (streams se) ->
     Forall (fun s => ptr s <= len (sw se')) (streams se')).
Proof.
  intros Hss.
  destruct (read_formats_good (escape se) (byteorder se) (formats se)
              (streams se) (sw se) Hss) as (text & ss & k & E & Hp & Hl).
  pose proof (Forall2_ptr_nonneg _ _ Hss Hp) as Hss'.
  destruct (reconcile_bounds (buffer se) ss (advance (sw se) k) Hss')
    as (Hn & Hw).
  eexists text, _. split; [apply (read_unfold _ _ _ _ E)|]. simpl.
  repeat split; try assumption.
  intros Hin. apply Hw. specialize (Hl Hin).
  eapply Forall_impl; [|apply max_ptr_ge]. simpl. intros. lia.
Qed.

(** Any number of rounds returns. *)
Lemma rounds_ok n : forall se,
  Forall (fun s => 0 <= ptr s) (streams se) ->
  exists ls se', rounds n se = Ok (ls, se').
Proof.
  induction n as [|n IH]; intros se Hss; simpl; [eauto|].
  destruct (read_ok se Hss) as (text & se1 & E & _ & _ & _ & _ & Hss1 & _).
  rewrite E. destruct (IH se1 Hss1) as (ls & se2 & E2). rewrite E2. eauto.
Qed.

(* ================================================================== *)
(** ** Independence of the byte order and of the device's past *)

Section Independence.

Lemma byteToInt_order bo bo' byte : byteToInt bo byte = byteToInt bo' byte.
Proof.
  destruct byte as [b|]; destruct bo, bo'; unfold byteToInt; simpl; lia.
Qed.

(** What a read decodes to is the value of its byte, 0 for a timeout. *)
Lemma byteToInt_range bo byte : 0 <= byteToInt bo byte <= 255.
Proof.
  destruct byte as [b|]; [|destruct bo; simpl; lia].
  assert (H : 0 <= byte_val b <= 255).
  { unfold byte_val. pose proof (Byte.to_N_bounded b). lia. }
  destruct bo; unfold byteToInt; simpl; lia.
Qed.

(** On two bytes the orders do differ. *)
Example int_from_bytes_orders :
  int_from_bytes [x01; x02] big = 258 /\ int_from_bytes [x01; x02] little = 513.
Proof. split; reflexivity. Qed.

Lemma sim_refl w : sim w w.
Proof. repeat split. Qed.

Lemma sim_push w w' : sim w w' -> sim (push w) (push w').
Proof.
  intros (Hb & Ht & Hi). unfold push, Serial_read, sim. simpl.
  rewrite Hb, (Hi (taken (ser w))) by lia.
  rewrite <- Ht. repeat split. intros i Hle. apply Hi. lia.
Qed.

Lemma sim_peek_loop n : forall index w w',
  sim w w' -> sim (peek_loop n index w) (peek_loop n index w').
Proof.
  induction n as [|n IH]; intros index w w' Hs; simpl;
    destruct Hs as (Hb & Hs); rewrite <- Hb;
    destruct (index >=? _); try (split; assumption).
  apply IH, sim_push. split; assumption.
Qed.

Lemma sim_peek index w w' :
  sim w w' -> res_rel sim (peek index w) (peek index w').
Proof.
  intros Hs. unfold peek, missing.
  pose proof (sim_peek_loop (Z.to_nat (index + 1 - Z.of_nat (length (buf w))))
                index w w' Hs) as H.
  destruct Hs as (Hb & _). rewrite <- Hb.
  destruct H as (Hb' & H'). rewrite <- Hb'.
  destruct (getitem _ index); simpl; [|reflexivity].
  split; [reflexivity|]. split; assumption.
Qed.

Lemma equiv_ret {A} (a : A) : equiv (ret a) (ret a).
Proof. intros st st' H. simpl. auto. Qed.

Lemma equiv_bind {A B} (m m' : M A) (k k' : A -> M B) :
  equiv m m' -> (forall a, equiv (k a) (k' a)) -> equiv (bind m k) (bind m' k').
Proof.
  intros Hm Hk st st' Hst. unfold bind. specialize (Hm st st' Hst).
  destruct (m st) as [[a s1]|e], (m' st') as [[a' s1']|e'];
    simpl in Hm; try contradiction.
  - destruct Hm as [-> Hs]. now apply Hk.
  - exact Hm.
Qed.

Lemma equiv_stream_read : equiv stream_read stream_read.
Proof.
  intros [s w] [s' w'] [Hs Hw]. simpl in Hs, Hw. subst s'. unfold stream_read.
  pose proof (sim_peek (ptr s) w w' Hw) as H.
  destruct (peek (ptr s) w) as [[b w1]|e], (peek (ptr s) w') as [[b' w1']|e'];
    simpl in *; try contradiction; [|exact H].
  destruct H as [-> H]. repeat split; apply H.
Qed.

Variables bo bo' : byte_order.

Lemma equiv_process cb cb' h :
  (forall c, equiv (cb c) (cb' c)) ->
  equiv (process bo cb h) (process bo' cb' h).
Proof.
  intros Hcb. destruct h; simpl;
    repeat (apply equiv_bind; [apply equiv_stream_read | intros ?]);
    rewrite ?(byteToInt_order bo bo'); try apply equiv_ret.
  destruct (Ascii.eqb _ _); [apply equiv_ret | apply Hcb].
Qed.

Lemma equiv_dispatch cb cb' hs c :
  (forall c, equiv (cb c) (cb' c)) ->
  equiv (dispatch bo cb hs c) (dispatch bo' cb' hs c).
Proof.
  intros Hcb. induction hs as [|h hs IH]; simpl; [apply equiv_ret|].
  destruct (Ascii.eqb c (getChar h)); [now apply equiv_process | exact IH].
Qed.

Lemma equiv_processEscape_depth d : forall c,
  equiv (processEscape_depth d bo c) (processEscape_depth d bo' c).
Proof.
  induction d as [|d IH]; intros c.
  - intros st st' _. reflexivity.
  - rewrite !processEscape_depth_S. now apply equiv_dispatch.
Qed.

Lemma equiv_read_token esc t :
  equiv (read_token esc bo t) (read_token esc bo' t).
Proof.
  destruct t; simpl; [apply equiv_processEscape_depth|].
  apply equiv_bind; [apply equiv_processEscape_depth | intros; apply equiv_ret].
Qed.

Lemma equiv_read_tokens esc toks :
  equiv (read_tokens esc bo toks) (read_tokens esc bo' toks).
Proof.
  induction toks as [|t toks IH]; simpl; [apply equiv_ret|].
  apply equiv_bind; [apply equiv_read_token | intros r].
  apply equiv_bind; [exact IH | intros; apply equiv_ret].
Qed.

Lemma equiv_read_format esc f :
  equiv (read_format esc bo f) (read_format esc bo' f).
Proof.
  unfold read_format.
  apply equiv_bind; [apply equiv_read_tokens | intros; apply equiv_ret].
Qed.

Lemma sim_read_formats esc fs : forall ss w w',
  sim w w' ->
  res_rel ss_sim (read_formats esc bo fs ss w) (read_formats esc bo' fs ss w').
Proof.
  induction fs as [|f fs IH]; intros ss w w' Hw.
  - destruct ss; simpl; repeat split; apply Hw.
  - destruct ss as [|s ss]; [simpl; repeat split; apply Hw|]. simpl.
    pose proof (equiv_read_format esc f (s, w) (s, w') (conj eq_refl Hw)) as H.
    destruct (read_format esc bo f (s, w)) as [[r [s1 w1]]|e],
             (read_format esc bo' f (s, w')) as [[r' [s1' w1']]|e'];
      simpl in H; try contradiction; [|exact H].
    destruct H as (-> & Hs & Hw1). simpl in Hs, Hw1. subst s1'.
    specialize (IH ss w1 w1' Hw1).
    destruct (read_formats esc bo fs ss w1) as [[rs [ss2 w2]]|e],
             (read_formats esc bo' fs ss w1') as [[rs' [ss2' w2']]|e'];
      simpl in IH; try contradiction; [|exact IH].
    destruct IH as (-> & Hs & Hw2). simpl in Hs, Hw2. subst ss2'.
    simpl. repeat split; apply Hw2.
Qed.

End Independence.

Lemma sim_pop m w w' : sim w w' -> sim (pop m w) (pop m w').
Proof.
  intros (Hb & Ht & Hi). unfold pop, sim. simpl. rewrite Hb.
  repeat split; assumption.
Qed.

Lemma sim_read se se' :
  se_sim se se' -> res_rel se_sim (read se) (read se').
Proof.
  intros (He & Hf & Hbf & Hss & Hw). unfold read.
  rewrite <- He, <- Hf, <- Hbf, <- Hss.
  pose proof (sim_read_formats (byteorder se) (byteorder se') (escape se)
                (formats se) (streams se) _ _ Hw) as H.
  destruct (read_formats _ (byteorder se) _ _ (sw se)) as [[r [ss1 w1]]|e],
           (read_formats _ (byteorder se') _ _ (sw se')) as [[r' [ss1' w1']]|e'];
    simpl in H; try contradiction; [|exact H].
  destruct H as (-> & Hs & Hw1). simpl in Hs, Hw1. subst ss1'.
  unfold reconcile. destruct (buffer se); simpl;
    (split; [reflexivity|]); unfold se_sim; simpl;
    do 4 (split; [reflexivity|]); now apply sim_pop.
Qed.

Lemma sim_rounds n : forall se se',
  se_sim se se' -> res_rel se_sim (rounds n se) (rounds n se').
Proof.
  induction n as [|n IH]; intros se se' Hs; simpl; [now split|].
  pose proof (sim_read se se' Hs) as H.
  destruct (read se) as [[l se1]|e], (read se') as [[l' se1']|e'];
    simpl in H; try contradiction; [|exact H].
  destruct H as [-> H]. specialize (IH se1 se1' H).
  destruct (rounds n se1) as [[ls se2]|e], (rounds n se1') as [[ls' se2']|e'];
    simpl in IH; try contradiction; [|exact IH].
  destruct IH as [-> IH]. now split.
Qed.

Lemma sim_lines n se se' :
  se_sim se se' -> lines_of (rounds n se) = lines_of (rounds n se').
Proof.
  intros Hs. pose proof (sim_rounds n se se' Hs) as H.
  destruct (rounds n se) as [[ls se2]|e], (rounds n se') as [[ls' se2']|e'];
    simpl in *; try contradiction; [now destruct H as [-> _] | now subst].
Qed.

(* ================================================================== *)
(** ** Escape dispatch: unknown codes, the recursive guard, the word handler *)

Lemma dispatch_none bo cb hs c :
  (forall h, In h hs -> getChar h <> c) ->
  dispatch bo cb hs c = ret "<BADESC>".
Proof.
  induction hs as [|h hs IH]; intros H; simpl; [reflexivity|].
  destruct (Ascii.eqb c (getChar h)) eqn:E.
  - apply Ascii.eqb_eq in E. exfalso. apply (H h); [now left | congruence].
  - apply IH. intros h' Hin. apply H. now right.
Qed.

Lemma processEscape_none bo c :
  (forall h, In h escapeHandlers -> getChar h <> c) ->
  processEscape bo c = ret "<BADESC>".
Proof.
  intros H. unfold processEscape. rewrite processEscape_depth_S.
  now apply dispatch_none.
Qed.

Lemma stream_read_ptr st byte st' :
  stream_read st = Ok (byte, st') -> ptr (fst st') = ptr (fst st) + 1.
Proof.
  destruct st as [s w]. unfold stream_read.
  destruct (peek (ptr s) w) as [[b w']|e]; [|discriminate].
  intros H. inversion H; subst. reflexivity.
Qed.

(** C7: an escape code that matches no handler of the registry yields the
    literal <BADESC> and leaves the cursor and the wrapper (its buffer and
    its device) exactly as they were, so no byte is consumed; a template made
    of the escape character and such a code, like %z, yields <BADESC>. *)
Theorem unknown_escape_badesc (bo : byte_order) (c : ascii) (st : St) :
  (forall h, In h escapeHandlers -> getChar h <> c) ->
  processEscape bo c st = Ok ("<BADESC>", st) /\
  read_token "%" bo (String c "") st = Ok ("<BADESC>", st) /\
  (c <> "%"%char -> read_format "%" bo (String "%" (String c "")) st
                    = Ok ("<BADESC>", st)).
Proof.
  intros H. pose proof (processEscape_none bo c H) as E.
  assert (Et : read_token "%" bo (String c "") st = Ok ("<BADESC>", st)).
  { simpl. unfold bind. rewrite E. reflexivity. }
  split; [now rewrite E|]. split; [exact Et|].
  intros Hc. unfold read_format. simpl.
  apply Ascii.eqb_neq in Hc. rewrite Hc. simpl.
  unfold bind at 1. unfold bind at 1. fold (read_token "%" bo (String c "")).
  rewrite Et. reflexivity.
Qed.

Lemma unknown_escape_badesc_z :
  let st := (mkStream 0, fresh [Some x41]) in
  processEscape big "z" st = Ok ("<BADESC>", st) /\
  read_token "%" big "z" st = Ok ("<BADESC>", st) /\
  ("z"%char <> "%"%char -> read_format "%" big "%z" st = Ok ("<BADESC>", st)).
Proof.
  apply (unknown_escape_badesc big "z").
  intros h Hin. simpl in Hin.
  repeat (destruct Hin as [<-|Hin]; [discriminate|]). contradiction.
Defined.

(** C5: whenever the byte the recursive handler ('e') reads decodes to its own
    code 'e' (byte 0x65), it returns <RECESC> and the cursor has advanced by
    exactly one; the dispatcher is not called back, whatever it is, so the
    result is the same with a nesting bound of one. *)
Theorem recursive_escape_guard (bo : byte_order) (cb : ascii -> M string)
    (st st' : St) (byte : read1) :
  stream_read st = Ok (byte, st') ->
  chr (byteToInt bo byte) = "e"%char ->
  process bo cb RecursiveByteEscapeHandler st = Ok ("<RECESC>", st') /\
  processEscape_depth 1 bo "e" st = Ok ("<RECESC>", st') /\
  processEscape bo "e" st = Ok ("<RECESC>", st') /\
  ptr (fst st') = ptr (fst st) + 1.
Proof.
  intros E Hc.
  assert (P : forall cb', process bo cb' RecursiveByteEscapeHandler st
                          = Ok ("<RECESC>", st')).
  { intros cb'. simpl. unfold bind. rewrite E, Hc. reflexivity. }
  repeat split; try apply P. eapply stream_read_ptr, E.
Qed.

Lemma recursive_escape_guard_x65 :
  let st := (mkStream 0, fresh [Some x65; Some x41]) in
  let st' := (mkStream 1, advance (fresh [Some x65; Some x41]) 1) in
  process little (fun _ _ => Raise RecursionDepth) RecursiveByteEscapeHandler st
    = Ok ("<RECESC>", st') /\
  processEscape_depth 1 little "e" st = Ok ("<RECESC>", st') /\
  processEscape little "e" st = Ok ("<RECESC>", st') /\
  ptr (fst st') = ptr (fst st) + 1.
Proof.
  apply (recursive_escape_guard little _ _ _ (Some x65)); reflexivity.
Defined.

(** C6: under either byte order, when the next two bytes are 0x01 then 0x02
    the word handler ('d') reads exactly these two (the cursor advances by 2)
    and returns the text 258, the first byte being the high one. *)
Theorem word_escape_big_endian (bo : byte_order) (cb : ascii -> M string)
    (st st1 st2 : St) :
  stream_read st = Ok (Some x01, st1) ->
  stream_read st1 = Ok (Some x02, st2) ->
  process bo cb IntegerWordEscapeHandler st = Ok ("258", st2) /\
  processEscape bo "d" st = Ok ("258", st2) /\
  ptr (fst st2) = ptr (fst st) + 2.
Proof.
  intros E1 E2.
  assert (P : forall cb', process bo cb' IntegerWordEscapeHandler st
                          = Ok ("258", st2)).
  { intros cb'. simpl. unfold bind. rewrite E1, E2. now destruct bo. }
  repeat split; try apply P.
  apply stream_read_ptr in E1, E2. lia.
Qed.

Lemma word_escape_big_endian_little :
  let st := (mkStream 0, fresh [Some x01; Some x02]) in
  let st1 := (mkStream 1, advance (fresh [Some x01; Some x02]) 1) in
  let st2 := (mkStream 2, advance (fresh [Some x01; Some x02]) 2) in
  process little (fun _ => ret "") IntegerWordEscapeHandler st = Ok ("258", st2) /\
  processEscape little "d" st = Ok ("258", st2) /\
  ptr (fst st2) = ptr (fst st) + 2.
Proof.
  apply (word_escape_big_endian little _ _
           (mkStream 1, advance (fresh [Some x01; Some x02]) 1)); reflexivity.
Defined.

(* ================================================================== *)
(** ** Fixed-width renderings *)

Lemma rendering_ok_all : forallb rendering_ok (seq 0 256) = true.
Proof. vm_compute. reflexivity. Qed.

(** C8: for every value 0..255 the hexadecimal rendering has exactly 2
    characters and the binary rendering exactly 8, and read back as
    hexadecimal and binary digits they denote the value (the padding is
    zeros on the left); 0x05 renders as 05 and 00000101, 0x00 as 00 and
    00000000. *)
Theorem renderings_fixed_width (n : Z) :
  0 <= n <= 255 ->
  String.length (intToHex n) = 2%nat /\
  String.length (intToBin n) = 8%nat /\
  HexString.Raw.to_N (intToHex n) 0 = Z.to_N n /\
  BinaryString.Raw.to_N (intToBin n) 0 = Z.to_N n /\
  intToHex 5 = "05" /\ intToBin 5 = "00000101" /\
  intToHex 0 = "00" /\ intToBin 0 = "00000000".
Proof.
  intros Hn.
  pose proof rendering_ok_all as H. rewrite forallb_forall in H.
  specialize (H (Z.to_nat n)).
  assert (Hin : In (Z.to_nat n) (seq 0 256)) by (apply in_seq; lia).
  specialize (H Hin). unfold rendering_ok in H.
  rewrite Z2Nat.id in H by lia.
  rewrite !andb_true_iff in H. destruct H as [[[H1 H2] H3] H4].
  apply Nat.eqb_eq in H1, H2. apply N.eqb_eq in H3, H4.
  rewrite H3, H4, H1, H2.
  replace (N.of_nat (Z.to_nat n)) with (Z.to_N n) by lia.
  repeat split.
Qed.

Lemma renderings_fixed_width_176 :
  String.length (intToHex 176) = 2%nat /\
  String.length (intToBin 176) = 8%nat /\
  HexString.Raw.to_N (intToHex 176) 0 = Z.to_N 176 /\
  BinaryString.Raw.to_N (intToBin 176) 0 = Z.to_N 176 /\
  intToHex 5 = "05" /\ intToBin 5 = "00000101" /\
  intToHex 0 = "00" /\ intToBin 0 = "00000000".
Proof. apply (renderings_fixed_width 176). lia. Defined.

(* ================================================================== *)
(** ** Timeouts *)

(** C4 as stated fails: a read that times out is appended to the buffer like
    a byte, [peek] returns it, and the round decodes it (here as the
    integer 0). *)
Lemma timeout_read_reaches_decoding :
  (peek 0 (fresh [None; Some x41])
     = Ok (None, advance (fresh [None; Some x41]) 1) /\
   buf (advance (fresh [None; Some x41]) 1) = [None] /\
   lines_of (rounds 1 (Session_init (fresh [None; Some x41]) "%" big
                                    (Some ["%i"]) false)) = Ok ["0"]) /\
  ~ (forall index w byte w',
        0 <= index -> ~ In None (buf w) ->
        peek index w = Ok (byte, w') ->
        byte <> None /\ ~ In None (buf w')).
Proof.
  split; [repeat split|].
  intros H.
  destruct (H 0 (fresh [None; Some x41]) None
              (advance (fresh [None; Some x41]) 1)) as [Hb _];
    [lia | simpl; tauto | reflexivity | congruence].
Qed.

(** C4, amended: a read that times out is no error and is not filtered:
    [push] appends whatever the device returned; [peek] at a non-negative
    index raises nothing, pulls exactly the number of reads the buffer lacks,
    timeouts counted, and returns the element at the index; an element that
    is a timeout decodes to the integer 0 under either byte order. *)
Theorem timeout_read_is_an_element (w : SerialWrapper) (index : Z) :
  0 <= index ->
  buf (push w) = (buf w ++ [incoming (ser w) (taken (ser w))])%list /\
  (exists byte,
      peek index w = Ok (byte, advance w (missing index w)) /\
      nth_error (buf w ++ pulled w (missing index w))%list (Z.to_nat index)
        = Some byte) /\
  index < len (advance w (missing index w)) /\
  (forall bo, byteToInt bo None = 0).
Proof.
  intros Hi. split; [reflexivity|]. split; [now apply peek_nonneg|].
  split; [|now intros []].
  rewrite len_advance. unfold missing, len. lia.
Qed.

Lemma timeout_read_is_an_element_first :
  buf (push (fresh [None; Some x41]))
    = (buf (fresh [None; Some x41]) ++ [None])%list /\
  (exists byte,
      peek 0 (fresh [None; Some x41])
        = Ok (byte, advance (fresh [None; Some x41]) 1) /\
      nth_error [None] 0 = Some byte) /\
  0 < 1 /\
  (forall bo, byteToInt bo None = 0).
Proof. apply (timeout_read_is_an_element (fresh [None; Some x41]) 0). lia. Defined.

(* ================================================================== *)
(** ** A trailing escape character *)

Section Trailing.

Lemma append_nil_r (s : string) : (s ++ "")%string = s.
Proof. induction s; simpl; congruence. Qed.

Lemma append_assoc (a b c : string) :
  ((a ++ b) ++ c)%string = (a ++ (b ++ c))%string.
Proof. induction a; simpl; congruence. Qed.

Lemma split_nonempty esc f : split esc f <> [].
Proof.
  destruct f as [|c f]; simpl; [discriminate|].
  destruct (Ascii.eqb c esc); [discriminate|].
  destruct (split esc f); discriminate.
Qed.

(** A template that ends with the escape character has a last, empty token. *)
Lemma split_snoc esc f :
  split esc (f ++ String esc "") = (split esc f ++ [""])%list.
Proof.
  induction f as [|c f IH]; simpl.
  - now rewrite Ascii.eqb_refl.
  - destruct (Ascii.eqb c esc); rewrite IH; [reflexivity|].
    pose proof (split_nonempty esc f).
    destruct (split esc f); [congruence | reflexivity].
Qed.

Variables (esc : ascii) (bo : byte_order).

Lemma read_tokens_snoc t toks : forall st,
  read_tokens esc bo (toks ++ [t])%list st =
  (rs <- read_tokens esc bo toks ;;
   r <- read_token esc bo t ;;
   ret (rs ++ r)%string) st.
Proof.
  induction toks as [|t0 toks IH]; intros st; simpl; unfold bind.
  - simpl. destruct (read_token esc bo t st) as [[r st1]|e]; [|reflexivity].
    unfold ret. now rewrite append_nil_r.
  - destruct (read_token esc bo t0 st) as [[r0 st1]|e]; [|reflexivity].
    rewrite IH. unfold bind, ret.
    destruct (read_tokens esc bo toks st1) as [[rs st2]|e]; [|reflexivity].
    destruct (read_token esc bo t st2) as [[r st3]|e]; [|reflexivity].
    now rewrite append_assoc.
Qed.

Lemma read_format_snoc f st :
  read_format esc bo (f ++ String esc "") st =
  (r <- read_format esc bo f ;;
   r' <- read_token esc bo "" ;;
   ret (r ++ r')%string) st.
Proof.
  unfold read_format. rewrite split_snoc.
  pose proof (split_nonempty esc f).
  destruct (split esc f) as [|t0 toks]; [congruence|]. cbn [tl hd app].
  unfold bind at 1. rewrite read_tokens_snoc. unfold bind, ret.
  destruct (read_tokens esc bo toks st) as [[rs st1]|e]; [|reflexivity].
  destruct (read_token esc bo "" st1) as [[r st2]|e]; [|reflexivity].
  now rewrite append_assoc.
Qed.

End Trailing.

(** C3 as stated fails: when the configured escape character is itself a
    code of the registry (here 'a'), a trailing escape character runs that
    code's handler, which here consumes a byte and prints it. *)
Lemma trailing_escape_runs_handler :
  (let st := (mkStream 0, fresh [Some x41]) in
   read_token "a" big "" st
     = Ok ("A", (mkStream 1, advance (fresh [Some x41]) 1)) /\
   read_format "a" big "a" st
     = Ok ("A", (mkStream 1, advance (fresh [Some x41]) 1))) /\
  ~ (forall esc bo st, read_token esc bo "" st = Ok ("<BADESC>", st)).
Proof.
  split; [split; reflexivity|].
  intros H.
  specialize (H "a"%char big (mkStream 0, fresh [Some x41])).
  discriminate H.
Qed.

(** C3, amended: the empty token after a trailing escape character is
    dispatched on the escape character itself; for every escape character
    that is not a code of the registry, and every template ending with it,
    that occurrence yields <BADESC> and leaves the cursor and the wrapper
    unchanged: the template's result is the result of the template without
    its last character, with <BADESC> appended. *)
Theorem trailing_escape_badesc (esc : ascii) (bo : byte_order) (f : string)
    (st : St) :
  (forall h, In h escapeHandlers -> getChar h <> esc) ->
  last (split esc (f ++ String esc "")) "x" = "" /\
  read_token esc bo "" st = processEscape bo esc st /\
  read_token esc bo "" st = Ok ("<BADESC>", st) /\
  read_format esc bo (f ++ String esc "") st =
    (r <- read_format esc bo f ;; ret (r ++ "<BADESC>")%string) st.
Proof.
  intros H. pose proof (processEscape_none bo esc H) as E.
  split; [rewrite split_snoc; apply last_last|].
  split; [reflexivity|].
  split; [simpl; now rewrite E|].
  rewrite read_format_snoc. unfold bind.
  destruct (read_format esc bo f st) as [[r st1]|e]; [|reflexivity].
  simpl. now rewrite E.
Qed.

Lemma trailing_escape_badesc_percent :
  let st := (mkStream 0, fresh [Some x41]) in
  last (split "%" ("x%a" ++ "%")) "x" = "" /\
  read_token "%" big "" st = processEscape big "%" st /\
  read_token "%" big "" st = Ok ("<BADESC>", st) /\
  read_format "%" big ("x%a" ++ "%") st =
    (r <- read_format "%" big "x%a" ;; ret (r ++ "<BADESC>")%string) st.
Proof.
  apply (trailing_escape_badesc "%" big "x%a").
  intros h Hin. simpl in Hin.
  repeat (destruct Hin as [<-|Hin]; [discriminate|]). contradiction.
Defined.

(* ================================================================== *)
(** ** Byte order *)

(** C10: from any wrapper (any device, any buffer), for every escape
    character, list of formats and buffering flag, any number of rounds
    returns, and the chunks written are the same under byte order big and
    under byte order little. *)
Theorem byte_order_irrelevant (w : SerialWrapper) (esc : ascii)
    (fmts : option (list string)) (buffered : bool) (n : nat) :
  exists ls,
    lines_of (rounds n (Session_init w esc big fmts buffered)) = Ok ls /\
    lines_of (rounds n (Session_init w esc little fmts buffered)) = Ok ls.
Proof.
  assert (Hs : se_sim (Session_init w esc big fmts buffered)
                      (Session_init w esc little fmts buffered)).
  { unfold se_sim, Session_init. simpl. repeat split. }
  assert (H0 : Forall (fun s => 0 <= ptr s)
                 (streams (Session_init w esc big fmts buffered))).
  { unfold Session_init. simpl. rewrite Forall_map. apply Forall_forall.
    simpl. intros. lia. }
  destruct (rounds_ok n _ H0) as (ls & se' & E).
  exists ls. rewrite <- (sim_lines n _ _ Hs), E. split; reflexivity.
Qed.

(* ================================================================== *)
(** ** Cursors after the reconciliation *)

(** What a non-negative offset addresses: an element of the buffer, or the
    read the device will return after as many reads as the offset lies
    beyond the buffer's end. *)
Lemma peek_addresses index w :
  0 <= index ->
  exists byte w',
    peek index w = Ok (byte, w') /\
    (index < len w -> nth_error (buf w) (Z.to_nat index) = Some byte) /\
    (len w <= index ->
     byte = incoming (ser w) (taken (ser w) + Z.to_nat (index - len w))).
Proof.
  intros Hi. destruct (peek_nonneg index w Hi) as (byte & E & Hn).
  exists byte, (advance w (missing index w)). split; [exact E|].
  unfold advance, pulled in Hn. simpl in Hn. unfold len, missing in *. split.
  - intros Hlt. rewrite nth_error_app1 in Hn by lia. exact Hn.
  - intros Hge. rewrite nth_error_app2 in Hn by lia.
    rewrite nth_error_map, nth_error_seq in Hn.
    destruct (Nat.ltb _ _) eqn:E'; simpl in Hn; [|discriminate].
    inversion Hn. f_equal. lia.
Qed.

(** C9: under either policy, a round that starts with every cursor offset
    non-negative returns, and afterwards every cursor offset is non-negative
    and addresses an element of the buffer or a read not yet pulled from the
    device: reading at it raises nothing and returns that element; cursors
    that were within the buffer (at most its length) are within it again. *)
Theorem cursors_valid_after_round (se : Session) :
  Forall (fun s => 0 <= ptr s) (streams se) ->
  exists text se',
    read se = Ok (text, se') /\
    Forall (fun s =>
              0 <= ptr s /\
              exists byte w',
                peek (ptr s) (sw se') = Ok (byte, w') /\
                (ptr s < len (sw se') ->
                 nth_error (buf (sw se')) (Z.to_nat (ptr s)) = Some byte) /\
                (len (sw se') <= ptr s ->
                 byte = incoming (ser (sw se'))
                          (taken (ser (sw se')) + Z.to_nat (ptr s - len (sw se')))))
           (streams se') /\
    (Forall (fun s => ptr s <= len (sw se)) (streams se) ->
     Forall (fun s => ptr s <= len (sw se')) (streams se')).
Proof.
  intros Hss.
  destruct (read_ok se Hss) as (text & se' & E & _ & _ & _ & _ & Hn & Hw).
  exists text, se'. split; [exact E|]. split; [|exact Hw].
  eapply Forall_impl; [|exact Hn]. simpl. intros s Hs.
  split; [exact Hs | now apply peek_addresses].
Qed.

Lemma cursors_valid_after_round_buffered :
  let se := Session_init (fresh [Some x41; Some x42; Some x43; Some x44])
                         "%" big (Some ["%a"; "%a%a%a"]) true in
  exists text se',
    read se = Ok (text, se') /\
    Forall (fun s =>
              0 <= ptr s /\
              exists byte w',
                peek (ptr s) (sw se') = Ok (byte, w') /\
                (ptr s < len (sw se') ->
                 nth_error (buf (sw se')) (Z.to_nat (ptr s)) = Some byte) /\
                (len (sw se') <= ptr s ->
                 byte = incoming (ser (sw se'))
                          (taken (ser (sw se')) + Z.to_nat (ptr s - len (sw se')))))
           (streams se') /\
    (Forall (fun s => ptr s <= len (sw se)) (streams se) ->
     Forall (fun s => ptr s <= len (sw se')) (streams se')).
Proof.
  apply (cursors_valid_after_round
           (Session_init (fresh [Some x41; Some x42; Some x43; Some x44])
                         "%" big (Some ["%a"; "%a%a%a"]) true)).
  simpl. repeat constructor; simpl; lia.
Defined.

(* ================================================================== *)
(** ** The two reconciliation policies *)

Lemma pop_count m w :
  0 <= or0 m <= len w ->
  buf (pop m w) = skipn (Z.to_nat (or0 m)) (buf w) /\
  len (pop m w) = len w - or0 m /\
  ser (pop m w) = ser w.
Proof.
  destruct m as [v|]; simpl; intros H; [now apply pop_within|].
  rewrite pop_None. repeat split. lia.
Qed.

Lemma or0_minInd ss :
  Forall (fun s => or0 (minInd ss) <= ptr s) ss /\
  (ss = [] \/ In (or0 (minInd ss)) (map ptr ss)).
Proof.
  destruct ss as [|s0 ss0] eqn:E; [split; [constructor | now left]|].
  rewrite <- E.
  destruct (minInd_spec ss ltac:(congruence)) as (m & -> & H1 & H2).
  simpl. split; [exact H1 | now right].
Qed.

Lemma se_sim_with_incoming inc se :
  (forall i, (taken (ser (sw se)) <= i)%nat -> inc i = incoming (ser (sw se)) i) ->
  se_sim (with_incoming inc se) se.
Proof.
  intros H. unfold se_sim, with_incoming, sim. simpl. repeat split. exact H.
Qed.

(** C1: in synchronized mode, a round that starts with every cursor at 0
    returns; with M the greatest cursor offset after the formats were
    processed, every cursor is 0 again and the buffer has lost exactly its
    first M elements (it held at least M); on a buffer that was empty the
    device was read exactly M times and the buffer is empty again.  The later
    rounds write the same chunks whatever the device returned up to this
    round: no read made so far, in particular none between a slower format's
    consumption and M, is read again. *)
Theorem synchronized_round (se : Session) :
  buffer se = false ->
  Forall (fun s => ptr s = 0) (streams se) ->
  exists text ss k se',
    read_formats (escape se) (byteorder se) (formats se) (streams se) (sw se)
      = Ok (text, (ss, advance (sw se) k)) /\
    read se = Ok (text, se') /\
    let M := or0 (maxInd ss) in
    buffer se' = false /\
    Forall (fun s => ptr s <= M) ss /\
    (ss = [] \/ In M (map ptr ss)) /\
    Forall (fun s => ptr s = 0) (streams se') /\
    0 <= M <= len (advance (sw se) k) /\
    buf (sw se') = skipn (Z.to_nat M) (buf (advance (sw se) k)) /\
    len (sw se') = len (advance (sw se) k) - M /\
    ser (sw se') = ser (advance (sw se) k) /\
    (buf (sw se) = [] -> Z.of_nat k = M /\ buf (sw se') = []) /\
    (forall inc n,
        (forall i, (taken (ser (sw se')) <= i)%nat ->
                   inc i = incoming (ser (sw se')) i) ->
        lines_of (rounds n (with_incoming inc se')) = lines_of (rounds n se')).
Proof.
  intros Hb H0.
  assert (Hss : Forall (fun s => 0 <= ptr s) (streams se)).
  { eapply Forall_impl; [|exact H0]. simpl. intros. lia. }
  assert (Hin : Forall (fun s => ptr s <= len (sw se)) (streams se)).
  { eapply Forall_impl; [|exact H0]. simpl. intros s Hs.
    pose proof (len_nonneg (sw se)). lia. }
  destruct (read_formats_good (escape se) (byteorder se) (formats se)
              (streams se) (sw se) Hss) as (text & ss & k & E & Hp & Hl).
  specialize (Hl Hin).
  pose proof (Forall2_ptr_nonneg _ _ Hss Hp) as Hss'.
  pose proof (max_ptr_nonneg ss) as HM0.
  exists text, ss, k. eexists. split; [exact E|].
  split; [apply (read_unfold _ _ _ _ E)|].
  rewrite Hb. unfold reconcile. cbn [fst snd sw streams buffer].
  rewrite (or0_maxInd ss Hss'), map_trim_self.
  split; [reflexivity|].
  assert (HM : 0 <= or0 (maxInd ss) <= len (advance (sw se) k))
    by (rewrite (or0_maxInd ss Hss'); lia).
  destruct (pop_count (maxInd ss) (advance (sw se) k) HM) as (Pb & Pl & Ps).
  rewrite (or0_maxInd ss Hss') in Pb, Pl.
  split; [apply max_ptr_ge|].
  split; [destruct ss; [now left | right; apply max_ptr_In; [discriminate | assumption]]|].
  split; [rewrite Forall_map; apply Forall_forall; reflexivity|].
  split; [lia|]. split; [exact Pb|]. split; [exact Pl|]. split; [exact Ps|].
  split.
  - intros He.
    assert (Hk : Z.of_nat k = max_ptr ss).
    { rewrite len_advance in Hl. unfold len in Hl. rewrite He in Hl.
      simpl in Hl. lia. }
    split; [exact Hk|]. rewrite Pb. apply skipn_all2.
    fold (len (advance (sw se) k)) in Hl.
    pose proof (len_advance (sw se) k) as Hla. unfold len in Hla.
    rewrite He in Hla. change (length (@nil read1)) with 0%nat in Hla. lia.
  - intros inc n Hinc. apply sim_lines, se_sim_with_incoming. exact Hinc.
Qed.

Lemma synchronized_round_two_formats :
  let se := Session_init (fresh [Some x41; Some x42; Some x43; Some x44])
                         "%" big (Some ["%a"; "%a%a%a"]) false in
  exists text ss k se',
    read_formats (escape se) (byteorder se) (formats se) (streams se) (sw se)
      = Ok (text, (ss, advance (sw se) k)) /\
    read se = Ok (text, se') /\
    let M := or0 (maxInd ss) in
    buffer se' = false /\
    Forall (fun s => ptr s <= M) ss /\
    (ss = [] \/ In M (map ptr ss)) /\
    Forall (fun s => ptr s = 0) (streams se') /\
    0 <= M <= len (advance (sw se) k) /\
    buf (sw se') = skipn (Z.to_nat M) (buf (advance (sw se) k)) /\
    len (sw se') = len (advance (sw se) k) - M /\
    ser (sw se') = ser (advance (sw se) k) /\
    (buf (sw se) = [] -> Z.of_nat k = M /\ buf (sw se') = []) /\
    (forall inc n,
        (forall i, (taken (ser (sw se')) <= i)%nat ->
                   inc i = incoming (ser (sw se')) i) ->
        lines_of (rounds n (with_incoming inc se')) = lines_of (rounds n se')).
Proof.
  apply (synchronized_round
           (Session_init (fresh [Some x41; Some x42; Some x43; Some x44])
                         "%" big (Some ["%a"; "%a%a%a"]) false)).
  - reflexivity.
  - simpl. repeat constructor.
Defined.

(** C2 as stated fails in its last part: with formats %e and %a%a on the
    bytes 'd', 1, 2, 'n' the cursors consume 3 and 2 bytes in the first
    round and 1 and 2 in the second; the gaps between the most and the least
    consumption sum to 2, and the buffer is empty after the second round. *)
Lemma buffered_length_not_summed_spread :
  (let se := Session_init (fresh [Some x64; Some x01; Some x02; Some x6e])
                          "%" big (Some ["%e"; "%a%a"]) true in
   history_spread 2 se = 2 /\
   exists ls se', rounds 2 se = Ok (ls, se') /\ len (sw se') = 0) /\
  ~ (forall se n ls se',
        buffer se = true ->
        Forall (fun s => ptr s = 0) (streams se) ->
        buf (sw se) = [] ->
        rounds n se = Ok (ls, se') ->
        len (sw se') = history_spread n se).
Proof.
  split.
  - split; [reflexivity|]. eexists. eexists. split; reflexivity.
  - intros H.
    assert (F : Forall (fun s => ptr s = 0) [mkStream 0; mkStream 0])
      by (repeat constructor).
    pose proof (H (Session_init (fresh [Some x64; Some x01; Some x02; Some x6e])
                                "%" big (Some ["%e"; "%a%a"]) true)
                  2%nat _ _ eq_refl F eq_refl eq_refl) as H'.
    vm_compute in H'. discriminate H'.
Qed.

(** C2, amended: in buffered mode, a round that starts with every cursor
    offset between 0 and the buffer's length returns; with m the least cursor
    offset after the formats were processed, every cursor has decreased by
    exactly m and the buffer has lost exactly its first m elements; m is at
    most every cursor's offset, so no element is dropped before every cursor
    has passed it.  When the buffer's length was the greatest cursor offset
    (as in a new session), it is so again, and the buffer's length after the
    round is the greatest minus the least cursor offset of that round. *)
Theorem buffered_round (se : Session) :
  buffer se = true ->
  Forall (fun s => 0 <= ptr s <= len (sw se)) (streams se) ->
  exists text ss k se',
    read_formats (escape se) (byteorder se) (formats se) (streams se) (sw se)
      = Ok (text, (ss, advance (sw se) k)) /\
    read se = Ok (text, se') /\
    let m := or0 (minInd ss) in
    buffer se' = true /\
    Forall (fun s => m <= ptr s) ss /\
    (ss = [] \/ In m (map ptr ss)) /\
    streams se' = map (fun s => mkStream (ptr s - m)) ss /\
    0 <= m <= len (advance (sw se) k) /\
    buf (sw se') = skipn (Z.to_nat m) (buf (advance (sw se) k)) /\
    len (sw se') = len (advance (sw se) k) - m /\
    ser (sw se') = ser (advance (sw se) k) /\
    Forall (fun s => 0 <= ptr s <= len (sw se')) (streams se') /\
    (len (sw se) = max_ptr (streams se) ->
     len (sw se') = max_ptr ss - m /\
     len (sw se') = max_ptr (streams se')).
Proof.
  intros Hb H0.
  assert (Hss : Forall (fun s => 0 <= ptr s) (streams se)).
  { eapply Forall_impl; [|exact H0]. simpl. intros. lia. }
  assert (Hin : Forall (fun s => ptr s <= len (sw se)) (streams se)).
  { eapply Forall_impl; [|exact H0]. simpl. intros. lia. }
  destruct (read_formats_good (escape se) (byteorder se) (formats se)
              (streams se) (sw se) Hss) as (text & ss & k & E & Hp & Hl).
  specialize (Hl Hin).
  pose proof (Forall2_ptr_nonneg _ _ Hss Hp) as Hss'.
  pose proof (max_ptr_ge ss) as Hge.
  destruct (or0_minInd ss) as (Hm & Hmin).
  set (w1 := advance (sw se) k) in *.
  assert (Hm0 : 0 <= or0 (minInd ss) <= len w1).
  { destruct Hmin as [->|Hmin]; [simpl; pose proof (len_nonneg w1); lia|].
    apply in_map_iff in Hmin. destruct Hmin as (s & Es & Hs).
    rewrite Forall_forall in Hss', Hge.
    specialize (Hss' s Hs). specialize (Hge s Hs). simpl in *. lia. }
  destruct (pop_count (minInd ss) w1 Hm0) as (Pb & Pl & Ps).
  assert (Est : fst (reconcile true ss w1)
                = map (fun s => mkStream (ptr s - or0 (minInd ss))) ss).
  { unfold reconcile. cbn [fst]. destruct (minInd ss) as [v|] eqn:Ev.
    - reflexivity.
    - destruct Hmin as [->|Hmin]; [reflexivity|].
      destruct ss; [contradiction|]. rewrite minInd_cons in Ev. discriminate. }
  assert (Emax : max_ptr (map (fun s => mkStream (ptr s - or0 (minInd ss))) ss)
                 = Z.max 0 (max_ptr ss - or0 (minInd ss))).
  { apply (max_ptr_trim (or0 (minInd ss)) ss); [lia | exact Hm]. }
  exists text, ss, k. eexists. split; [exact E|].
  split; [apply (read_unfold _ _ _ _ E)|].
  rewrite Hb. cbn zeta. cbn [sw streams buffer]. rewrite Est.
  change (snd (reconcile true ss w1)) with (pop (minInd ss) w1).
  split; [reflexivity|]. split; [exact Hm|]. split; [exact Hmin|]. split; [reflexivity|].
  split; [exact Hm0|]. split; [exact Pb|]. split; [exact Pl|].
  split; [exact Ps|]. split.
  - rewrite Forall_map. rewrite Forall_forall in *. intros s Hs. simpl.
    specialize (Hm s Hs). specialize (Hge s Hs). simpl in *. lia.
  - intros Hinv. rewrite Emax, Pl.
    pose proof (max_ptr_mono _ _ Hp).
    assert (max_ptr ss - or0 (minInd ss) >= 0).
    { destruct Hmin as [->|Hmin]; [simpl; lia|].
      apply in_map_iff in Hmin. destruct Hmin as (s & Es & Hs).
      rewrite Forall_forall in Hge. specialize (Hge s Hs). simpl in *. lia. }
    lia.
Qed.

Lemma buffered_round_two_formats :
  let se := Session_init (fresh [Some x41; Some x42; Some x43; Some x44])
                         "%" big (Some ["%a"; "%a%a%a"]) true in
  exists text ss k se',
    read_formats (escape se) (byteorder se) (formats se) (streams se) (sw se)
      = Ok (text, (ss, advance (sw se) k)) /\
    read se = Ok (text, se') /\
    let m := or0 (minInd ss) in
    buffer se' = true /\
    Forall (fun s => m <= ptr s) ss /\
    (ss = [] \/ In m (map ptr ss)) /\
    streams se' = map (fun s => mkStream (ptr s - m)) ss /\
    0 <= m <= len (advance (sw se) k) /\
    buf (sw se') = skipn (Z.to_nat m) (buf (advance (sw se) k)) /\
    len (sw se') = len (advance (sw se) k) - m /\
    ser (sw se') = ser (advance (sw se) k) /\
    Forall (fun s => 0 <= ptr s <= len (sw se')) (streams se') /\
    (len (sw se) = max_ptr (streams se) ->
     len (sw se') = max_ptr ss - m /\
     len (sw se') = max_ptr (streams se')).
Proof.
  apply (buffered_round
           (Session_init (fresh [Some x41; Some x42; Some x43; Some x44])
                         "%" big (Some ["%a"; "%a%a%a"]) true)).
  - reflexivity.
  - simpl. constructor; [unfold len; simpl; lia|].
    constructor; [unfold len; simpl; lia|]. constructor.
Defined.

(* ================================================================== *)
(** ** The session's configuration and its cursors over the rounds *)

Lemma read_formats_length esc bo fs : forall ss w text ss' w',
  read_formats esc bo fs ss w = Ok (text, (ss', w')) -> length ss' = length ss.
Proof.
  induction fs as [|f fs IH]; intros ss w text ss' w' E.
  - destruct ss; simpl in E; inversion E; reflexivity.
  - destruct ss as [|s ss]; simpl in E; [inversion E; reflexivity|].
    destruct (read_format esc bo f (s, w)) as [[r [s1 w1]]|e]; [|discriminate].
    destruct (read_formats esc bo fs ss w1) as [[rs [ss2 w2]]|e] eqn:E2;
      [|discriminate].
    inversion E; subst. simpl. f_equal. eapply IH, E2.
Qed.

Lemma reconcile_length buffered ss w :
  length (fst (reconcile buffered ss w)) = length ss.
Proof.
  unfold reconcile. destruct buffered; simpl.
  - destruct (minInd ss); [apply length_map | reflexivity].
  - apply length_map.
Qed.

Lemma read_keeps se text se' :
  read se = Ok (text, se') ->
  escape se' = escape se /\ byteorder se' = byteorder se /\
  formats se' = formats se /\ buffer se' = buffer se /\
  length (streams se') = length (streams se).
Proof.
  unfold read.
  destruct (read_formats _ _ _ _ _) as [[r [ss w]]|e] eqn:E; [|discriminate].
  pose proof (reconcile_length (buffer se) ss w) as Hl.
  destruct (reconcile (buffer se) ss w) as [ss' w'].
  intros H. inversion H; subst. simpl in *.
  repeat split. rewrite Hl. eapply read_formats_length, E.
Qed.

Lemma rounds_keep n : forall se ls se',
  rounds n se = Ok (ls, se') ->
  length ls = n /\
  escape se' = escape se /\ byteorder se' = byteorder se /\
  formats se' = formats se /\ buffer se' = buffer se /\
  length (streams se') = length (streams se).
Proof.
  induction n as [|n IH]; intros se ls se' E; simpl in E.
  - inversion E; subst. repeat split.
  - destruct (read se) as [[l se1]|e] eqn:E1; [|discriminate].
    destruct (rounds n se1) as [[ls2 se2]|e] eqn:E2; [|discriminate].
    inversion E; subst.
    destruct (read_keeps _ _ _ E1) as (A1 & A2 & A3 & A4 & A5).
    destruct (IH _ _ _ E2) as (B0 & B1 & B2 & B3 & B4 & B5).
    simpl. repeat split; congruence.
Qed.

(** X1: a session made by the constructor has one cursor per format, and
    any number of rounds returns one chunk per round and leaves the escape
    character, byte order, formats, buffering flag and the number of cursors
    as they were. *)
Theorem rounds_keep_configuration (w : SerialWrapper) (esc : ascii)
    (bo : byte_order) (fmts : option (list string)) (buffered : bool) (n : nat) :
  let se := Session_init w esc bo fmts buffered in
  length (streams se) = length (formats se) /\
  exists ls se',
    rounds n se = Ok (ls, se') /\
    length ls = n /\
    escape se' = esc /\ byteorder se' = bo /\ buffer se' = buffered /\
    formats se' = formats se /\
    length (streams se') = length (formats se').
Proof.
  cbn zeta.
  assert (Hl : length (streams (Session_init w esc bo fmts buffered))
               = length (formats (Session_init w esc bo fmts buffered))).
  { unfold Session_init. simpl. apply length_map. }
  split; [exact Hl|].
  assert (H0 : Forall (fun s => 0 <= ptr s)
                 (streams (Session_init w esc bo fmts buffered))).
  { unfold Session_init. simpl. rewrite Forall_map. apply Forall_forall.
    simpl. intros. lia. }
  destruct (rounds_ok n _ H0) as (ls & se' & E).
  exists ls, se'. split; [exact E|].
  destruct (rounds_keep n _ _ _ E) as (B0 & B1 & B2 & B3 & B4 & B5).
  repeat split; try assumption. congruence.
Qed.

(* ================================================================== *)
(** ** The registry *)

(** X2: the codes of the registry are pairwise distinct and every handler
    is in it, so the first match of [processEscape] is the only one: for
    every handler, dispatching on its code runs that handler, with
    [processEscape] itself (nesting one level less) as the call-back. *)
Theorem registry_dispatch (bo : byte_order) (h : EscapeHandler) (st : St) :
  NoDup (map getChar escapeHandlers) /\
  In h escapeHandlers /\
  processEscape bo (getChar h) st = process bo (processEscape_depth 1 bo) h st.
Proof.
  split; [|split].
  - simpl. repeat (constructor; [simpl; intuition discriminate|]). constructor.
  - destruct h; simpl; tauto.
  - destruct h; reflexivity.
Qed.

(* ================================================================== *)
(** ** How far a handler moves the cursor *)

Section Widths.

Variable bo : byte_order.

Lemma advances_ret {A} (a : A) : advances 0 (ret a).
Proof.
  intros [p] w Hs. exists a, 0%nat. simpl. rewrite advance_0, Z.add_0_r.
  split; [reflexivity|]. intros. pose proof (len_nonneg w). unfold len in *. lia.
Qed.

Lemma advances_bind {A B} n1 n2 (m : M A) (k : A -> M B) :
  0 <= n1 -> 0 <= n2 ->
  advances n1 m -> (forall a, advances n2 (k a)) ->
  advances (n1 + n2) (bind m k).
Proof.
  intros H1 H2 Hm Hk s w Hs.
  destruct (Hm s w Hs) as (a & k1 & E1 & Hl1).
  destruct (Hk a (mkStream (ptr s + n1)) (advance w k1) ltac:(simpl; lia))
    as (b & k2 & E2 & Hl2).
  simpl in E2, Hl2. rewrite advance_advance in *.
  exists b, (k1 + k2)%nat. unfold bind. rewrite E1, E2, Z.add_assoc.
  split; [reflexivity|]. intros Hw. specialize (Hl1 Hw). lia.
Qed.

Lemma advances_stream_read : advances 1 stream_read.
Proof.
  intros s w Hs. unfold stream_read.
  destruct (peek_nonneg (ptr s) w Hs) as (byte & E & _). rewrite E.
  exists byte, (missing (ptr s) w). split; [reflexivity|].
  intros Hw. rewrite len_advance. unfold missing, len in *. lia.
Qed.

Lemma advances_process cb h :
  h <> RecursiveByteEscapeHandler -> advances (width h) (process bo cb h).
Proof.
  intros Hh. destruct h; try congruence; simpl;
    try apply advances_ret;
    try (apply (advances_bind 1 0); try lia;
         [apply advances_stream_read | intros; apply advances_ret]).
  apply (advances_bind 1 1); try lia; [apply advances_stream_read | intros].
  apply (advances_bind 1 0); try lia;
    [apply advances_stream_read | intros; apply advances_ret].
Qed.

Lemma advances_within {A} n (m : M A) : 0 <= n -> advances n m -> within n m.
Proof.
  intros Hn H s w Hs. destruct (H s w Hs) as (a & k & E & Hl).
  exists a, (mkStream (ptr s + n)), k. simpl. repeat split; try assumption; lia.
Qed.

Lemma within_mono {A} n n' (m : M A) : n <= n' -> within n m -> within n' m.
Proof.
  intros Hn H s w Hs. destruct (H s w Hs) as (a & s' & k & E & Hp & Hl).
  exists a, s', k. repeat split; try assumption; lia.
Qed.

Lemma within_bind {A B} n1 n2 (m : M A) (k : A -> M B) :
  within n1 m -> (forall a, within n2 (k a)) -> within (n1 + n2) (bind m k).
Proof.
  intros Hm Hk s w Hs.
  destruct (Hm s w Hs) as (a & s1 & k1 & E1 & Hp1 & Hl1).
  destruct (Hk a s1 (advance w k1) ltac:(lia)) as (b & s2 & k2 & E2 & Hp2 & Hl2).
  rewrite advance_advance in *.
  exists b, s2, (k1 + k2)%nat. unfold bind. rewrite E1, E2.
  split; [reflexivity|]. split; [lia|].
  intros Hw. specialize (Hl1 Hw). lia.
Qed.

Lemma width_le_2 h : 0 <= width h <= 2.
Proof. destruct h; simpl; lia. Qed.

Lemma within_dispatch n cb hs c :
  0 <= n ->
  (forall h, In h hs -> getChar h = c -> within n (process bo cb h)) ->
  within n (dispatch bo cb hs c).
Proof.
  intros Hn. induction hs as [|h hs IH]; intros H; simpl.
  - apply (within_mono 0); [lia|]. apply advances_within; [lia|].
    apply advances_ret.
  - destruct (Ascii.eqb c (getChar h)) eqn:E.
    + apply H; [now left|]. symmetry. now apply Ascii.eqb_eq.
    + apply IH. intros h' Hin. apply H. now right.
Qed.

Lemma within_processEscape_1 c :
  c <> getChar RecursiveByteEscapeHandler ->
  within 2 (processEscape_depth 1 bo c).
Proof.
  intros Hc. rewrite processEscape_depth_S. apply within_dispatch; [lia|].
  intros h _ Hh. apply (within_mono (width h)); [apply width_le_2|].
  apply advances_within; [apply width_le_2|].
  apply advances_process. congruence.
Qed.

Lemma within_processEscape c : within 3 (processEscape bo c).
Proof.
  unfold processEscape. rewrite processEscape_depth_S.
  apply within_dispatch; [lia|]. intros h _ _.
  assert (P : h <> RecursiveByteEscapeHandler -> within 3 (process bo (processEscape_depth 1 bo) h)).
  { intros Hh. apply (within_mono (width h)); [pose proof (width_le_2 h); lia|].
    apply advances_within; [apply width_le_2|]. now apply advances_process. }
  destruct h; try (apply P; discriminate). clear P.
  unfold process. apply (within_bind 1 2).
  - apply advances_within; [lia | apply advances_stream_read].
  - intros byte. destruct (Ascii.eqb _ _) eqn:E.
    + apply (within_mono 0); [lia|]. apply advances_within; [lia|].
      apply advances_ret.
    + apply within_processEscape_1. now apply Ascii.eqb_neq.
Qed.

End Widths.

(** X3: every handler but the recursive one, run from a non-negative
    cursor, returns and moves the cursor by exactly the number of reads in
    its body: 1 for b, h, i, a and x, 2 for d, 0 for n and t; a cursor that
    was within the buffer leaves the buffer extended just up to itself. *)
Theorem plain_handler_width (bo : byte_order) (cb : ascii -> M string)
    (h : EscapeHandler) (s : SerialStream) (w : SerialWrapper) :
  h <> RecursiveByteEscapeHandler ->
  0 <= ptr s ->
  exists text k,
    process bo cb h (s, w)
      = Ok (text, (mkStream (ptr s + width h), advance w k)) /\
    (ptr s <= len w -> len (advance w k) = Z.max (len w) (ptr s + width h)).
Proof. intros Hh Hs. now apply advances_process. Qed.

Lemma plain_handler_width_word :
  exists text k,
    process big (fun _ => ret "") IntegerWordEscapeHandler
            (mkStream 0, fresh [Some x41; Some x42; Some x43])
      = Ok (text, (mkStream (0 + 2),
                   advance (fresh [Some x41; Some x42; Some x43]) k)) /\
    (0 <= 0 -> len (advance (fresh [Some x41; Some x42; Some x43]) k)
               = Z.max 0 (0 + 2)).
Proof.
  apply (plain_handler_width big (fun _ => ret "") IntegerWordEscapeHandler
           (mkStream 0) (fresh [Some x41; Some x42; Some x43]));
    [discriminate | simpl; lia].
Defined.

(** X4: whatever the escape code, [processEscape] run from a non-negative
    cursor returns and moves the cursor forward by at most 3 (the recursive
    handler's byte and the two bytes of a word); from a cursor within the
    buffer it pulls at most 3 reads from the device.  Three is reached by the
    recursive handler on the bytes 'd', 1, 2. *)
Theorem escape_consumes_at_most_three (bo : byte_order) (c : ascii)
    (s : SerialStream) (w : SerialWrapper) :
  0 <= ptr s ->
  (exists text s' k,
      processEscape bo c (s, w) = Ok (text, (s', advance w k)) /\
      ptr s <= ptr s' <= ptr s + 3 /\
      (ptr s <= len w -> (k <= 3)%nat)) /\
  processEscape bo "e" (mkStream 0, fresh [Some x64; Some x01; Some x02])
    = Ok ("258", (mkStream 3, advance (fresh [Some x64; Some x01; Some x02]) 3)).
Proof.
  intros Hs. split; [|now destruct bo].
  destruct (within_processEscape bo c s w Hs) as (text & s' & k & E & Hp & Hl).
  exists text, s', k. split; [exact E|]. split; [exact Hp|].
  intros Hw. specialize (Hl Hw). rewrite len_advance in Hl. lia.
Qed.

Lemma escape_consumes_at_most_three_hex :
  (exists text s' k,
      processEscape little "h" (mkStream 0, fresh [Some x41])
        = Ok (text, (s', advance (fresh [Some x41]) k)) /\
      0 <= ptr s' <= 0 + 3 /\
      (0 <= len (fresh [Some x41]) -> (k <= 3)%nat)) /\
  processEscape little "e" (mkStream 0, fresh [Some x64; Some x01; Some x02])
    = Ok ("258", (mkStream 3, advance (fresh [Some x64; Some x01; Some x02]) 3)).
Proof.
  apply (escape_consumes_at_most_three little "h" (mkStream 0) (fresh [Some x41])).
  simpl. lia.
Defined.

(** X5: when the byte the recursive handler reads decodes to a character
    other than 'e', the escape 'e' gives exactly what the escape of that
    character gives on the rest of the stream: the code is chosen by the
    data. *)
Theorem recursive_escape_dispatches (bo : byte_order) (st st1 : St)
    (byte : read1) (c : ascii) :
  stream_read st = Ok (byte, st1) ->
  chr (byteToInt bo byte) = c ->
  c <> "e"%char ->
  processEscape bo "e" st = processEscape bo c st1.
Proof.
  intros E Hc Hne. unfold processEscape.
  change (processEscape_depth 2 bo "e" st)
    with (process bo (processEscape_depth 1 bo) RecursiveByteEscapeHandler st).
  unfold process, bind. rewrite E, Hc.
  change (getChar RecursiveByteEscapeHandler) with "e"%char.
  rewrite (proj2 (Ascii.eqb_neq c "e") Hne).
  rewrite !processEscape_depth_S. now apply dispatch_plain.
Qed.

Lemma recursive_escape_dispatches_hex :
  processEscape big "e" (mkStream 0, fresh [Some x68; Some x05])
  = processEscape big "h" (mkStream 1, advance (fresh [Some x68; Some x05]) 1).
Proof.
  apply (recursive_escape_dispatches big _ _ (Some x68) "h");
    [reflexivity | reflexivity | discriminate].
Defined.

(* ================================================================== *)
(** ** Templates as token lists *)

Section Tokens.

Lemma split_no_sep esc f : mem esc f = false -> split esc f = [f].
Proof.
  induction f as [|c f IH]; simpl; [reflexivity|].
  intros H. apply orb_false_iff in H. destruct H as [Hc Hm].
  rewrite Ascii.eqb_sym, Hc, (IH Hm). reflexivity.
Qed.




End Tokens.


(* ================================================================== *)
(** ** Templates without an escape *)

Section Literal.

Variables (esc : ascii) (bo : byte_order).

Lemma read_format_literal f st :
  mem esc f = false -> read_format esc bo f st = Ok (f, st).
Proof.
  intros H. unfold read_format. rewrite (split_no_sep esc f H). simpl.
  unfold bind, ret. now rewrite append_nil_r.
Qed.

Lemma read_formats_literal fs : forall ss w,
  Forall (fun f => mem esc f = false) fs ->
  read_formats esc bo fs ss w
    = Ok (fold_right String.append "" (firstn (length ss) fs), (ss, w)).
Proof.
  induction fs as [|f fs IH]; intros ss w H.
  - destruct ss; reflexivity.
  - destruct ss as [|s ss]; [reflexivity|]. inversion H; subst. simpl.
    rewrite read_format_literal by assumption. now rewrite IH.
Qed.

End Literal.

Lemma trim_0 s : trim 0 s = s.
Proof. destruct s. unfold trim. simpl. now rewrite Z.sub_0_r. Qed.

Lemma pop_0 w : pop (Some 0) w = w.
Proof. now destruct w. Qed.

(** With every cursor at 0 the reconciliation changes nothing. *)
Lemma reconcile_zeros buffered ss w :
  Forall (fun s => ptr s = 0) ss -> reconcile buffered ss w = (ss, w).
Proof.
  intros H0. unfold reconcile. destruct buffered.
  - destruct ss as [|s0 ss0] eqn:Ess; [simpl; now rewrite pop_None|].
    rewrite <- Ess in *.
    destruct (minInd_spec ss ltac:(congruence)) as (m & -> & _ & Hin).
    apply in_map_iff in Hin. destruct Hin as (s & <- & Hin).
    rewrite Forall_forall in H0. rewrite (H0 s Hin), pop_0. f_equal.
    rewrite <- (map_id ss) at 2. apply map_ext. apply trim_0.
  - f_equal.
    + rewrite <- (map_id ss) at 2. apply map_ext_in. intros s Hin.
      rewrite Forall_forall in H0. specialize (H0 s Hin).
      destruct s as [p]. simpl in H0. subst p. reflexivity.
    + destruct ss as [|s0 ss0] eqn:Ess; [simpl; now rewrite pop_None|].
      rewrite <- Ess in *.
      assert (Hn : Forall (fun s => 0 <= ptr s) ss).
      { eapply Forall_impl; [|exact H0]. simpl. intros. lia. }
      rewrite (maxInd_max_ptr ss Hn).
      replace (match ss with [] => None | _ :: _ => Some (max_ptr ss) end)
        with (Some (max_ptr ss)) by (rewrite Ess; reflexivity).
      assert (Hz : max_ptr ss = 0).
      { pose proof (max_ptr_nonneg ss).
        assert (max_ptr ss <= 0); [|lia].
        apply max_ptr_le; [lia|].
        eapply Forall_impl; [|exact H0]. simpl. intros. lia. }
      now rewrite Hz, pop_0.
Qed.

(** X7: a template without the escape character is written as it is and
    reads nothing; a session all of whose templates are such writes their
    concatenation at every round and never changes: the device is never
    read, under either policy. *)
Theorem literal_templates_read_nothing (w : SerialWrapper) (esc : ascii)
    (bo : byte_order) (fs : list string) (buffered : bool) (n : nat) :
  Forall (fun f => mem esc f = false) fs ->
  (forall f st, In f fs -> read_format esc bo f st = Ok (f, st)) /\
  rounds n (Session_init w esc bo (Some fs) buffered)
    = Ok (repeat (fold_right String.append "" fs) n,
          Session_init w esc bo (Some fs) buffered).
Proof.
  intros H. split.
  - intros f st Hin. apply read_format_literal.
    rewrite Forall_forall in H. now apply H.
  - assert (R : read (Session_init w esc bo (Some fs) buffered)
                = Ok (fold_right String.append "" fs,
                      Session_init w esc bo (Some fs) buffered)).
    { unfold read, Session_init. simpl.
      rewrite read_formats_literal by assumption.
      rewrite reconcile_zeros
        by (rewrite Forall_map; apply Forall_forall; reflexivity).
      now rewrite length_map, firstn_all. }
    induction n as [|n IH]; simpl; [reflexivity|].
    now rewrite R, IH.
Qed.

Lemma literal_templates_read_nothing_two :
  (forall f st, In f ["ab"; "c"] -> read_format "%" big f st = Ok (f, st)) /\
  rounds 2 (Session_init (fresh [Some x41]) "%" big (Some ["ab"; "c"]) true)
    = Ok (repeat (fold_right String.append "" ["ab"; "c"]) 2,
          Session_init (fresh [Some x41]) "%" big (Some ["ab"; "c"]) true).
Proof.
  apply (literal_templates_read_nothing (fresh [Some x41]) "%" big ["ab"; "c"] true 2).
  repeat constructor.
Defined.

(* ================================================================== *)
(** ** The buffer as a window on the device *)

Section Window.

Lemma window_empty w : buf w = [] -> window w.
Proof.
  intros E. unfold window, base. rewrite E. simpl. split; [lia | reflexivity].
Qed.

Lemma base_advance w k : base (advance w k) = base w.
Proof.
  unfold base, advance, pulled. simpl.
  rewrite length_app, length_map, length_seq. lia.
Qed.

Lemma window_advance w k : window w -> window (advance w k).
Proof.
  intros [Hl Hb]. unfold window. rewrite base_advance.
  unfold advance, pulled. simpl.
  rewrite length_app, length_map, length_seq. split; [lia|].
  rewrite seq_app, map_app, <- Hb. do 3 f_equal. unfold base. lia.
Qed.

Lemma window_pop m w :
  0 <= m <= len w -> window w ->
  window (pop (Some m) w) /\
  Z.of_nat (base (pop (Some m) w)) = Z.of_nat (base w) + m.
Proof.
  intros Hm [Hl Hb]. destruct (pop_within m w Hm) as (Eb & El & Es).
  unfold len in *.
  assert (Hlen : length (buf (pop (Some m) w))
                 = (length (buf w) - Z.to_nat m)%nat) by lia.
  assert (Hbase : base (pop (Some m) w) = (base w + Z.to_nat m)%nat).
  { unfold base. rewrite Es, Hlen. lia. }
  split; [|lia]. unfold window. rewrite Hbase, Es, Hlen. split; [lia|].
  rewrite Eb, Hb at 1. now rewrite skipn_map, skipn_seq.
Qed.

Lemma peek_window index w :
  0 <= index -> window w ->
  peek index w
    = Ok (incoming (ser w) (base w + Z.to_nat index),
          advance w (missing index w)).
Proof.
  intros Hi Hw. destruct (peek_nonneg index w Hi) as (byte & E & Hn).
  rewrite E. do 2 f_equal.
  destruct (window_advance w (missing index w) Hw) as [_ Hb].
  rewrite Hb, base_advance, nth_error_map, nth_error_seq in Hn.
  destruct (Nat.ltb _ _); simpl in Hn; [|discriminate].
  now inversion Hn.
Qed.

End Window.

(** X8: when the buffer holds the last reads of the device in order (as it
    does from a new wrapper on), a cursor at a non-negative offset reads the
    device read whose number is its position -- the count of reads dropped so
    far plus its offset -- and moves to the next position; the buffer is
    still such a window and nothing was dropped.  So each cursor reads the
    device's reads in order, each once. *)
Theorem cursor_reads_device_in_order (s : SerialStream) (w : SerialWrapper) :
  window w ->
  0 <= ptr s ->
  exists s' w',
    stream_read (s, w)
      = Ok (incoming (ser w) (Z.to_nat (position w s)), (s', w')) /\
    position w' s' = position w s + 1 /\
    window w' /\ base w' = base w /\ incoming (ser w') = incoming (ser w).
Proof.
  intros Hw Hs. unfold stream_read. rewrite (peek_window _ _ Hs Hw).
  exists (mkStream (ptr s + 1)), (advance w (missing (ptr s) w)).
  unfold position. rewrite base_advance. simpl.
  replace (Z.to_nat (Z.of_nat (base w) + ptr s))
    with (base w + Z.to_nat (ptr s))%nat by lia.
  split; [reflexivity|]. split; [lia|].
  split; [now apply window_advance|]. split; reflexivity.
Qed.

Lemma cursor_reads_device_in_order_fresh :
  let w := fresh [Some x41; Some x42; Some x43] in
  exists s' w',
    stream_read (mkStream 1, w)
      = Ok (incoming (ser w) (Z.to_nat (position w (mkStream 1))), (s', w')) /\
    position w' s' = position w (mkStream 1) + 1 /\
    window w' /\ base w' = base w /\ incoming (ser w') = incoming (ser w).
Proof.
  apply (cursor_reads_device_in_order (mkStream 1)
           (fresh [Some x41; Some x42; Some x43])).
  - apply window_empty. reflexivity.
  - simpl. lia.
Defined.

(* ================================================================== *)
(** ** One round, in full *)

Lemma reconcile_streams ss w :
  fst (reconcile true ss w)
  = map (fun s => mkStream (ptr s - or0 (minInd ss))) ss.
Proof.
  unfold reconcile. cbn [fst]. destruct (minInd ss) as [v|] eqn:Ev;
    [reflexivity|].
  destruct ss; [reflexivity|]. rewrite minInd_cons in Ev. discriminate.
Qed.

(** From cursors between 0 and the buffer's length, a round returns the
    session [reconciled] from the state its formats leave, in which the
    buffer reaches exactly the furthest cursor. *)
Lemma round_facts se :
  Forall (fun s => 0 <= ptr s <= len (sw se)) (streams se) ->
  exists text ss k,
    read_formats (escape se) (byteorder se) (formats se) (streams se) (sw se)
      = Ok (text, (ss, advance (sw se) k)) /\
    read se = Ok (text, reconciled se ss (advance (sw se) k)) /\
    Forall2 (fun s s' => ptr s <= ptr s') (streams se) ss /\
    Forall (fun s => 0 <= ptr s) ss /\
    len (advance (sw se) k) = Z.max (len (sw se)) (max_ptr ss) /\
    or0 (maxInd ss) = max_ptr ss /\
    0 <= or0 (minInd ss) <= max_ptr ss /\
    Forall (fun s => or0 (minInd ss) <= ptr s) ss /\
    (ss = [] \/ In (or0 (minInd ss)) (map ptr ss)).
Proof.
  intros H0.
  assert (Hss : Forall (fun s => 0 <= ptr s) (streams se)).
  { eapply Forall_impl; [|exact H0]. simpl. intros. lia. }
  assert (Hin : Forall (fun s => ptr s <= len (sw se)) (streams se)).
  { eapply Forall_impl; [|exact H0]. simpl. intros. lia. }
  destruct (read_formats_good (escape se) (byteorder se) (formats se)
              (streams se) (sw se) Hss) as (text & ss & k & E & Hp & Hl).
  specialize (Hl Hin).
  pose proof (Forall2_ptr_nonneg _ _ Hss Hp) as Hss'.
  pose proof (max_ptr_ge ss) as Hge.
  pose proof (max_ptr_nonneg ss) as HM0.
  destruct (or0_minInd ss) as (Hm & Hmin).
  exists text, ss, k. split; [exact E|]. split.
  - rewrite (read_unfold _ _ _ _ E). unfold reconciled. do 2 f_equal.
    destruct (buffer se).
    + now rewrite reconcile_streams.
    + unfold reconcile. cbn [fst snd]. now rewrite map_trim_self.
  - repeat split; try assumption; try (now apply or0_maxInd).
    + destruct Hmin as [->|Hmin]; [simpl; lia|].
      apply in_map_iff in Hmin. destruct Hmin as (s & Es & Hs).
      rewrite Forall_forall in Hss'. specialize (Hss' s Hs). lia.
    + destruct Hmin as [->|Hmin]; [simpl; lia|].
      apply in_map_iff in Hmin. destruct Hmin as (s & Es & Hs).
      rewrite Forall_forall in Hge. specialize (Hge s Hs). simpl in Hge. lia.
Qed.

Lemma window_pop_opt m w :
  0 <= or0 m <= len w -> window w ->
  window (pop m w) /\
  Z.of_nat (base (pop m w)) = Z.of_nat (base w) + or0 m /\
  incoming (ser (pop m w)) = incoming (ser w).
Proof.
  intros Hm Hw. destruct m as [v|]; simpl in *.
  - destruct (window_pop v w Hm Hw) as [W B].
    split; [exact W|]. split; [exact B | reflexivity].
  - rewrite pop_None. split; [exact Hw|]. split; [lia | reflexivity].
Qed.

Lemma Forall2_map_self {A B} (P : A -> B -> Prop) (f : A -> B) l :
  Forall (fun a => P a (f a)) l -> Forall2 P l (map f l).
Proof. induction 1; simpl; constructor; assumption. Qed.

(** X9: a round that starts on a window of the device, with every cursor
    between 0 and the buffer's length, ends on a window of the same device.
    In buffered mode every cursor is, after the reconciliation, at the
    position where its format left it: no read is skipped for any format.
    In synchronized mode every cursor is at the position the furthest cursor
    reached. *)
Theorem round_resume_positions (se : Session) :
  window (sw se) ->
  Forall (fun s => 0 <= ptr s <= len (sw se)) (streams se) ->
  exists text ss k se',
    read_formats (escape se) (byteorder se) (formats se) (streams se) (sw se)
      = Ok (text, (ss, advance (sw se) k)) /\
    read se = Ok (text, se') /\
    window (sw se') /\
    incoming (ser (sw se')) = incoming (ser (sw se)) /\
    (buffer se = true ->
     Forall2 (fun s s' => position (sw se') s' = position (sw se) s)
             ss (streams se')) /\
    (buffer se = false ->
     Forall (fun s' => position (sw se') s'
                       = Z.of_nat (base (sw se)) + max_ptr ss) (streams se')).
Proof.
  intros Hw H0.
  destruct (round_facts se H0)
    as (text & ss & k & E & R & Hp & Hn & Hl & HM & Hm0 & Hm & Hmin).
  exists text, ss, k, (reconciled se ss (advance (sw se) k)).
  split; [exact E|]. split; [exact R|].
  pose proof (window_advance _ k Hw) as Hwa.
  unfold reconciled, position. cbn [sw streams].
  destruct (buffer se).
  - destruct (window_pop_opt (minInd ss) (advance (sw se) k) ltac:(lia) Hwa)
      as (W & B & I).
    rewrite base_advance in B.
    split; [exact W|]. split; [exact I|]. split; [|discriminate].
    intros _. apply Forall2_map_self. apply Forall_forall. intros s _.
    simpl. lia.
  - destruct (window_pop_opt (maxInd ss) (advance (sw se) k) ltac:(lia) Hwa)
      as (W & B & I).
    rewrite base_advance in B.
    split; [exact W|]. split; [exact I|]. split; [discriminate|].
    intros _. rewrite Forall_map. apply Forall_forall. intros s _.
    simpl. lia.
Qed.

Lemma round_resume_positions_buffered :
  let se := Session_init (fresh [Some x41; Some x42; Some x43; Some x44])
                         "%" big (Some ["%a"; "%a%a%a"]) true in
  exists text ss k se',
    read_formats (escape se) (byteorder se) (formats se) (streams se) (sw se)
      = Ok (text, (ss, advance (sw se) k)) /\
    read se = Ok (text, se') /\
    window (sw se') /\
    incoming (ser (sw se')) = incoming (ser (sw se)) /\
    (buffer se = true ->
     Forall2 (fun s s' => position (sw se') s' = position (sw se) s)
             ss (streams se')) /\
    (buffer se = false ->
     Forall (fun s' => position (sw se') s'
                       = Z.of_nat (base (sw se)) + max_ptr ss) (streams se')).
Proof.
  apply (round_resume_positions
           (Session_init (fresh [Some x41; Some x42; Some x43; Some x44])
                         "%" big (Some ["%a"; "%a%a%a"]) true)).
  - apply window_empty. reflexivity.
  - simpl. constructor; [unfold len; simpl; lia|].
    constructor; [unfold len; simpl; lia|]. constructor.
Defined.

(* ================================================================== *)
(** ** Invariants of a run of rounds *)

Lemma sync_step se :
  buffer se = false ->
  Forall (fun s => ptr s = 0) (streams se) ->
  buf (sw se) = [] ->
  exists text se',
    read se = Ok (text, se') /\
    buffer se' = false /\
    Forall (fun s => ptr s = 0) (streams se') /\
    buf (sw se') = [] /\
    (taken (ser (sw se)) <= taken (ser (sw se')))%nat.
Proof.
  intros Hb H0 He.
  assert (H1 : Forall (fun s => 0 <= ptr s <= len (sw se)) (streams se)).
  { eapply Forall_impl; [|exact H0]. simpl. intros s Hs.
    pose proof (len_nonneg (sw se)). lia. }
  destruct (round_facts se H1)
    as (text & ss & k & E & R & Hp & Hn & Hl & HM & Hm0 & Hm & Hmin).
  exists text, (reconciled se ss (advance (sw se) k)).
  split; [exact R|]. unfold reconciled. rewrite Hb. cbn [sw streams buffer].
  assert (Hlen : len (sw se) = 0) by (unfold len; now rewrite He).
  destruct (pop_count (maxInd ss) (advance (sw se) k) ltac:(lia))
    as (Pb & Pl & Ps).
  split; [reflexivity|].
  split; [rewrite Forall_map; apply Forall_forall; reflexivity|].
  split.
  - rewrite Pb. apply skipn_all2. unfold len in *. lia.
  - rewrite Ps. simpl. lia.
Qed.

(** X10: in synchronized mode, from a session whose cursors are at 0 and
    whose buffer is empty (a new session), any number of rounds returns and
    leaves every cursor at 0 and the buffer empty: nothing is kept from one
    round to the next. *)
Theorem synchronized_rounds_keep_nothing (n : nat) (se : Session) :
  buffer se = false ->
  Forall (fun s => ptr s = 0) (streams se) ->
  buf (sw se) = [] ->
  exists ls se',
    rounds n se = Ok (ls, se') /\
    Forall (fun s => ptr s = 0) (streams se') /\
    buf (sw se') = [] /\
    (taken (ser (sw se)) <= taken (ser (sw se')))%nat.
Proof.
  revert se. induction n as [|n IH]; intros se Hb H0 He; simpl.
  - exists [], se. repeat split; try assumption. lia.
  - destruct (sync_step se Hb H0 He) as (text & se1 & R & Hb1 & H1 & He1 & Ht1).
    rewrite R.
    destruct (IH se1 Hb1 H1 He1) as (ls & se2 & R2 & H2 & He2 & Ht2).
    rewrite R2. exists (text :: ls), se2. repeat split; try assumption. lia.
Qed.

Lemma synchronized_rounds_keep_nothing_two_formats :
  let se := Session_init (fresh [Some x41; Some x42; Some x43; Some x44])
                         "%" big (Some ["%a"; "%a%a%a"]) false in
  exists ls se',
    rounds 3 se = Ok (ls, se') /\
    Forall (fun s => ptr s = 0) (streams se') /\
    buf (sw se') = [] /\
    (taken (ser (sw se)) <= taken (ser (sw se')))%nat.
Proof.
  apply (synchronized_rounds_keep_nothing 3
           (Session_init (fresh [Some x41; Some x42; Some x43; Some x44])
                         "%" big (Some ["%a"; "%a%a%a"]) false)).
  - reflexivity.
  - simpl. repeat constructor.
  - reflexivity.
Defined.

Lemma buffered_step se :
  buffer se = true ->
  Forall (fun s => 0 <= ptr s <= len (sw se)) (streams se) ->
  len (sw se) = max_ptr (streams se) ->
  exists text se',
    read se = Ok (text, se') /\
    buffer se' = true /\
    Forall (fun s => 0 <= ptr s <= len (sw se')) (streams se') /\
    len (sw se') = max_ptr (streams se') /\
    (streams se' = [] \/ In 0 (map ptr (streams se'))).
Proof.
  intros Hb H0 Hinv.
  destruct (round_facts se H0)
    as (text & ss & k & E & R & Hp & Hn & Hl & HM & Hm0 & Hm & Hmin).
  pose proof (max_ptr_mono _ _ Hp) as Hmono.
  pose proof (max_ptr_ge ss) as Hge.
  exists text, (reconciled se ss (advance (sw se) k)).
  split; [exact R|]. unfold reconciled. rewrite Hb. cbn [sw streams buffer].
  destruct (pop_count (minInd ss) (advance (sw se) k) ltac:(lia))
    as (Pb & Pl & Ps).
  assert (Emax : max_ptr (map (fun s => mkStream (ptr s - or0 (minInd ss))) ss)
                 = Z.max 0 (max_ptr ss - or0 (minInd ss))).
  { apply (max_ptr_trim (or0 (minInd ss)) ss); [lia | exact Hm]. }
  split; [reflexivity|]. split; [|split].
  - rewrite Forall_map. rewrite Forall_forall in *. intros s Hs. simpl.
    specialize (Hm s Hs). specialize (Hge s Hs). simpl in Hge. lia.
  - rewrite Emax, Pl. lia.
  - destruct Hmin as [->|Hmin]; [now left|]. right.
    rewrite map_map. simpl.
    apply in_map_iff in Hmin. destruct Hmin as (s & Es & Hs).
    apply in_map_iff. exists s. split; [lia | exact Hs].
Qed.

Lemma buffered_rounds n : forall se,
  buffer se = true ->
  Forall (fun s => 0 <= ptr s <= len (sw se)) (streams se) ->
  len (sw se) = max_ptr (streams se) ->
  (streams se = [] \/ In 0 (map ptr (streams se))) ->
  exists ls se',
    rounds n se = Ok (ls, se') /\
    Forall (fun s => 0 <= ptr s <= len (sw se')) (streams se') /\
    len (sw se') = max_ptr (streams se') /\
    (streams se' = [] \/ In 0 (map ptr (streams se'))).
Proof.
  induction n as [|n IH]; intros se Hb H0 Hinv Hz; simpl.
  - exists [], se. repeat split; assumption.
  - destruct (buffered_step se Hb H0 Hinv) as (text & se1 & R & Hb1 & H1 & Hi1 & Hz1).
    rewrite R. destruct (IH se1 Hb1 H1 Hi1 Hz1) as (ls & se2 & R2 & H2).
    rewrite R2. exists (text :: ls), se2. split; [reflexivity | exact H2].
Qed.

(** X11: in buffered mode, from a session whose cursors are between 0 and
    the buffer's length, the buffer reaching exactly the furthest cursor (a
    new session), one or more rounds return and leave the session so again,
    with the slowest cursor at 0: the buffer holds exactly the reads between
    the slowest and the fastest cursor. *)
Theorem buffered_rounds_invariant (n : nat) (se : Session) :
  buffer se = true ->
  Forall (fun s => 0 <= ptr s <= len (sw se)) (streams se) ->
  len (sw se) = max_ptr (streams se) ->
  exists ls se',
    rounds (S n) se = Ok (ls, se') /\
    Forall (fun s => 0 <= ptr s <= len (sw se')) (streams se') /\
    len (sw se') = max_ptr (streams se') /\
    (streams se' = [] \/ In 0 (map ptr (streams se'))).
Proof.
  intros Hb H0 Hinv. simpl.
  destruct (buffered_step se Hb H0 Hinv) as (text & se1 & R & Hb1 & H1 & Hi1 & Hz1).
  rewrite R. destruct (buffered_rounds n se1 Hb1 H1 Hi1 Hz1) as (ls & se2 & R2 & H2).
  rewrite R2. exists (text :: ls), se2. split; [reflexivity | exact H2].
Qed.

Lemma buffered_rounds_invariant_two_formats :
  let se := Session_init (fresh [Some x41; Some x42; Some x43; Some x44])
                         "%" big (Some ["%a"; "%a%a%a"]) true in
  exists ls se',
    rounds 3 se = Ok (ls, se') /\
    Forall (fun s => 0 <= ptr s <= len (sw se')) (streams se') /\
    len (sw se') = max_ptr (streams se') /\
    (streams se' = [] \/ In 0 (map ptr (streams se'))).
Proof.
  apply (buffered_rounds_invariant 2
           (Session_init (fresh [Some x41; Some x42; Some x43; Some x44])
                         "%" big (Some ["%a"; "%a%a%a"]) true)).
  - reflexivity.
  - simpl. constructor; [unfold len; simpl; lia|].
    constructor; [unfold len; simpl; lia|]. constructor.
  - reflexivity.
Defined.

(* ================================================================== *)
(** ** One cursor: the two policies agree *)

Lemma length_1 {A} (l : list A) : length l = 1%nat -> exists a, l = [a].
Proof. destruct l as [|a [|b l]]; try discriminate. eauto. Qed.

Lemma read_single se :
  length (streams se) = 1%nat ->
  (exists e, read (with_buffer true se) = Raise e /\
             read (with_buffer false se) = Raise e) \/
  (exists text se1,
      read (with_buffer true se) = Ok (text, with_buffer true se1) /\
      read (with_buffer false se) = Ok (text, with_buffer false se1) /\
      length (streams se1) = 1%nat).
Proof.
  intros Hl. unfold read, with_buffer. cbn [sw escape byteorder formats buffer streams].
  destruct (read_formats _ _ _ _ _) as [[text [ss w]]|e] eqn:E;
    [|left; eauto].
  right. pose proof (read_formats_length _ _ _ _ _ _ _ _ E) as Hl'.
  rewrite Hl in Hl'. destruct (length_1 ss Hl') as [s ->].
  exists text,
    (mkSession (pop (Some (ptr s)) w) (escape se) (byteorder se) (formats se)
               (buffer se) [trim (ptr s) s]).
  repeat split.
Qed.

Lemma rounds_single n : forall se,
  length (streams se) = 1%nat ->
  lines_of (rounds n (with_buffer true se))
  = lines_of (rounds n (with_buffer false se)).
Proof.
  induction n as [|n IH]; intros se Hl; simpl; [reflexivity|].
  destruct (read_single se Hl) as [(e & -> & ->)|(text & se1 & -> & -> & Hl1)];
    [reflexivity|].
  specialize (IH se1 Hl1).
  destruct (rounds n (with_buffer true se1)) as [[ls s2]|e],
           (rounds n (with_buffer false se1)) as [[ls' s2']|e'];
    simpl in *; congruence.
Qed.

(** X12: a session with a single cursor (one format, or the default
    format) writes the same chunks in buffered and in synchronized mode,
    whatever its state and the device. *)
Theorem single_cursor_policies_agree (se : Session) (n : nat) :
  length (streams se) = 1%nat ->
  lines_of (rounds n (with_buffer true se))
  = lines_of (rounds n (with_buffer false se)).
Proof. apply rounds_single. Qed.

Lemma single_cursor_policies_agree_default :
  lines_of (rounds 3 (with_buffer true
                        (Session_init (fresh [Some x41; None; Some x43])
                                      "%" big None false)))
  = lines_of (rounds 3 (with_buffer false
                          (Session_init (fresh [Some x41; None; Some x43])
                                        "%" big None false))).
Proof.
  apply (single_cursor_policies_agree
           (Session_init (fresh [Some x41; None; Some x43]) "%" big None false) 3).
  reflexivity.
Defined.

(* ================================================================== *)
(** ** The default format *)

Lemma default_round esc bo buffered inc t :
  esc <> "a"%char ->
  read (Session_init (mkWrapper (mkSerial inc t) []) esc bo None buffered)
  = Ok (char_str (chr (byteToInt bo (inc t))),
        Session_init (mkWrapper (mkSerial inc (S t)) []) esc bo None buffered).
Proof.
  intros Hne. assert (E : Ascii.eqb "a" esc = false).
  { apply Ascii.eqb_neq. congruence. }
  assert (Hs : split esc (String esc "a") = [""; "a"]).
  { cbn [split]. now rewrite Ascii.eqb_refl, E. }
  unfold read, Session_init. cbn [sw escape byteorder formats buffer streams map].
  unfold read_formats, read_format. rewrite Hs.
  destruct buffered; reflexivity.
Qed.

(** X13: without formats the session uses the escape character followed by
    'a'.  When the escape character is not 'a' itself, from an empty buffer
    each round reads exactly one read of the device and writes it as one
    character (a timeout as character 0), under either policy: [n] rounds
    write the next [n] reads. *)
Theorem default_session_echoes (esc : ascii) (bo : byte_order)
    (buffered : bool) (w : SerialWrapper) (n : nat) :
  esc <> "a"%char ->
  buf w = [] ->
  lines_of (rounds n (Session_init w esc bo None buffered))
  = Ok (map (fun i => char_str (chr (byteToInt bo (incoming (ser w) i))))
            (seq (taken (ser w)) n)).
Proof.
  intros Hne He. destruct w as [[inc t] b]. simpl in He. subst b. simpl.
  revert t. induction n as [|n IH]; intros t; simpl; [reflexivity|].
  rewrite (default_round esc bo buffered inc t Hne).
  specialize (IH (S t)).
  destruct (rounds n _) as [[ls se']|e]; simpl in *; [|discriminate].
  now inversion IH.
Qed.

Lemma default_session_echoes_percent :
  lines_of (rounds 3 (Session_init (fresh [Some x41; None; Some x43])
                                   "%" little None true))
  = Ok (map (fun i => char_str (chr (byteToInt little
                                       (device [Some x41; None; Some x43] i))))
            (seq 0 3)).
Proof.
  apply (default_session_echoes "%" little true
           (fresh [Some x41; None; Some x43]) 3);
    [discriminate | reflexivity].
Defined.

Lemma default_round_a bo buffered inc t :
  read (Session_init (mkWrapper (mkSerial inc t) []) "a" bo None buffered)
  = Ok (String (chr (byteToInt bo (inc t)))
               (char_str (chr (byteToInt bo (inc (S t))))),
        Session_init (mkWrapper (mkSerial inc (S (S t))) []) "a" bo None buffered).
Proof. destruct buffered; reflexivity. Qed.

(** X14: when the escape character is 'a', the default format is "aa",
    which is two escape characters with nothing after them: each is
    dispatched as code 'a', so from an empty buffer each round reads two
    reads of the device and writes them as two characters. *)
Theorem default_session_escape_a (bo : byte_order) (buffered : bool)
    (inc : nat -> read1) (t n : nat) :
  lines_of (rounds n (Session_init (mkWrapper (mkSerial inc t) []) "a" bo
                                   None buffered))
  = Ok (map (fun i => String (chr (byteToInt bo (inc (t + 2 * i)%nat)))
                             (char_str (chr (byteToInt bo (inc (t + 2 * i + 1)%nat)))))
            (seq 0 n)).
Proof.
  revert t. induction n as [|n IH]; intros t; [reflexivity|].
  cbn [rounds]. rewrite (default_round_a bo buffered inc t).
  specialize (IH (S (S t))).
  destruct (rounds n _) as [[ls se']|e]; simpl in IH; [|discriminate].
  inversion IH; subst. cbn [lines_of seq map].
  rewrite <- seq_shift, map_map. do 2 f_equal.
  - now rewrite Nat.add_0_r, Nat.add_1_r.
  - apply map_ext. intros i. do 4 f_equal; f_equal; lia.
Qed.

(* ================================================================== *)
(** ** The history kept by [main] *)

Section History.

Variable m : nat.
Hypothesis m_pos : (0 < m)%nat.

Lemma length_lastn {A} (l : list A) : length (lastn m l) = Nat.min m (length l).
Proof. unfold lastn. rewrite length_skipn. lia. Qed.

Lemma deque_append_lastn (l : list ascii) x :
  deque_append m (lastn m l) x = lastn m (l ++ [x]).
Proof.
  unfold deque_append. destruct (Nat.eqb_spec m 0) as [E|_]; [lia|].
  rewrite length_lastn. unfold lastn. rewrite length_app. simpl.
  destruct (Nat.ltb_spec (Nat.min m (length l)) m) as [H|H].
  - replace (length l - m)%nat with 0%nat by lia.
    replace (length l + 1 - m)%nat with 0%nat by lia. reflexivity.
  - replace (length l + 1 - m)%nat with (S (length l - m)) by lia.
    rewrite skipn_app.
    replace (S (length l - m) - length l)%nat with 0%nat by lia.
    simpl skipn at 2. f_equal.
    change (tl (skipn (length l - m) l)) with (skipn 1 (skipn (length l - m) l)).
    now rewrite skipn_skipn.
Qed.

Lemma deque_fold_lastn xs : forall l : list ascii,
  fold_left (deque_append m) xs (lastn m l) = lastn m (l ++ xs).
Proof.
  induction xs as [|x xs IH]; intros l; simpl.
  - now rewrite app_nil_r.
  - rewrite deque_append_lastn, IH, <- app_assoc. reflexivity.
Qed.

Lemma list_ascii_app (a b : string) :
  list_ascii_of_string (a ++ b)
  = (list_ascii_of_string a ++ list_ascii_of_string b)%list.
Proof. induction a; simpl; congruence. Qed.

Lemma history_fold_lastn lines : forall l : list ascii,
  fold_left (deque_extend m) lines (lastn m l)
  = lastn m (l ++ list_ascii_of_string (fold_right String.append "" lines)).
Proof.
  induction lines as [|line lines IH]; intros l; simpl.
  - now rewrite app_nil_r.
  - unfold deque_extend at 2. rewrite deque_fold_lastn, IH.
    now rewrite list_ascii_app, app_assoc.
Qed.

End History.

Lemma length_list_ascii (s : string) :
  length (list_ascii_of_string s) = String.length s.
Proof. induction s; simpl; congruence. Qed.

(** X15: the history that [main] keeps for the output files, a deque of
    positive maximum length [omax] extended with every chunk written, holds
    the last [omax] characters of all that was written (characters, since a
    chunk is a string), and fewer only when less was written. *)
Theorem history_keeps_last_characters (omax : nat) (lines : list string) :
  (0 < omax)%nat ->
  history_of omax lines
    = lastn omax (list_ascii_of_string (fold_right String.append "" lines)) /\
  length (history_of omax lines)
    = Nat.min omax (String.length (fold_right String.append "" lines)).
Proof.
  intros Hm.
  assert (E : history_of omax lines
              = lastn omax (list_ascii_of_string
                              (fold_right String.append "" lines))).
  { unfold history_of. change (@nil ascii) with (lastn omax (@nil ascii)).
    now rewrite history_fold_lastn. }
  split; [exact E|]. rewrite E, length_lastn by assumption.
  now rewrite length_list_ascii.
Qed.

Lemma history_keeps_last_characters_three :
  history_of 3 ["ab"; "cd"]
    = lastn 3 (list_ascii_of_string (fold_right String.append "" ["ab"; "cd"])) /\
  length (history_of 3 ["ab"; "cd"])
    = Nat.min 3 (String.length (fold_right String.append "" ["ab"; "cd"])).
Proof. apply (history_keeps_last_characters 3 ["ab"; "cd"]). lia. Defined.

(* ================================================================== *)
(** ** Cursors at the same position read the same *)

Section Par.

Lemma same_pos_step s w s' w' s1 k s1' k' :
  same_pos (s, w) (s', w') ->
  ptr s <= ptr s1 -> ptr s1 - ptr s = ptr s1' - ptr s' ->
  same_pos (s1, advance w k) (s1', advance w' k').
Proof.
  unfold same_pos, position. simpl.
  intros (W & W' & I & P & P' & E) H1 H2.
  rewrite !base_advance.
  split; [now apply window_advance|]. split; [now apply window_advance|].
  split; [exact I|]. lia.
Qed.

Lemma same_pos_advance_l s w st' k :
  same_pos (s, w) st' -> same_pos (s, advance w k) st'.
Proof.
  unfold same_pos, position. simpl. intros (W & W' & I & P & P' & E).
  rewrite base_advance.
  split; [now apply window_advance|]. split; [exact W'|].
  split; [exact I|]. lia.
Qed.

Lemma par_ret {A} (a : A) : par (ret a).
Proof.
  intros s w s' w' H. exists a, s, 0%nat, s', 0%nat.
  rewrite !advance_0. repeat split; lia.
Qed.

Lemma par_bind {A B} (m : M A) (k : A -> M B) :
  par m -> (forall a, par (k a)) -> par (bind m k).
Proof.
  intros Hm Hk s w s' w' H.
  destruct (Hm s w s' w' H) as (a & s1 & k1 & s1' & k1' & E & E' & Hp & Hd).
  pose proof (same_pos_step _ _ _ _ s1 k1 s1' k1' H Hp Hd) as H1.
  destruct (Hk a _ _ _ _ H1) as (b & s2 & k2 & s2' & k2' & F & F' & Hp2 & Hd2).
  exists b, s2, (k1 + k2)%nat, s2', (k1' + k2')%nat.
  unfold bind. rewrite E, E', F, F', !advance_advance.
  repeat split; lia.
Qed.

Lemma par_stream_read : par stream_read.
Proof.
  intros s w s' w' H. pose proof H as (W & W' & I & P & P' & E).
  simpl in W, W', I, P, P', E. unfold stream_read.
  rewrite (peek_window _ _ P W), (peek_window _ _ P' W').
  exists (incoming (ser w) (base w + Z.to_nat (ptr s))),
    (mkStream (ptr s + 1)), (missing (ptr s) w),
    (mkStream (ptr s' + 1)), (missing (ptr s') w').
  split; [reflexivity|]. split.
  - rewrite I. do 3 f_equal. unfold position in E. lia.
  - simpl. lia.
Qed.

Variable bo : byte_order.

Lemma par_process_plain cb h :
  h <> RecursiveByteEscapeHandler -> par (process bo cb h).
Proof.
  intros Hh. destruct h; try congruence; unfold process;
    repeat (apply par_bind; [apply par_stream_read | intros ?]);
    apply par_ret.
Qed.

Lemma par_process cb h :
  (forall c, c <> getChar RecursiveByteEscapeHandler -> par (cb c)) ->
  par (process bo cb h).
Proof.
  intros Hcb. destruct h; try (apply par_process_plain; congruence).
  unfold process. apply par_bind; [apply par_stream_read | intros byte].
  destruct (Ascii.eqb _ _) eqn:E; [apply par_ret|].
  apply Hcb. now apply Ascii.eqb_neq.
Qed.

Lemma par_dispatch cb hs c :
  (forall h, In h hs -> getChar h = c -> par (process bo cb h)) ->
  par (dispatch bo cb hs c).
Proof.
  induction hs as [|h hs IH]; intros H; simpl; [apply par_ret|].
  destruct (Ascii.eqb c (getChar h)) eqn:E.
  - apply H; [now left|]. symmetry. now apply Ascii.eqb_eq.
  - apply IH. intros h' Hin. apply H. now right.
Qed.

Lemma par_processEscape_1 c :
  c <> getChar RecursiveByteEscapeHandler ->
  par (processEscape_depth 1 bo c).
Proof.
  intros Hc. rewrite processEscape_depth_S. apply par_dispatch. intros h _ Hh.
  apply par_process_plain. congruence.
Qed.

Lemma par_processEscape c : par (processEscape bo c).
Proof.
  unfold processEscape. rewrite processEscape_depth_S.
  apply par_dispatch. intros h _ _.
  apply par_process. intros c' Hc'. now apply par_processEscape_1.
Qed.

Lemma par_read_token esc t : par (read_token esc bo t).
Proof.
  destruct t; simpl; [apply par_processEscape|].
  apply par_bind; [apply par_processEscape | intros; apply par_ret].
Qed.

Lemma par_read_tokens esc toks : par (read_tokens esc bo toks).
Proof.
  induction toks as [|t toks IH]; simpl; [apply par_ret|].
  apply par_bind; [apply par_read_token | intros r].
  apply par_bind; [exact IH | intros; apply par_ret].
Qed.

Lemma par_read_format esc f : par (read_format esc bo f).
Proof.
  unfold read_format.
  apply par_bind; [apply par_read_tokens | intros; apply par_ret].
Qed.

End Par.

(* ================================================================== *)
(** ** Formats do not disturb each other *)

Section Together.

Variables (esc : ascii) (bo : byte_order).

(** Cursors that are all at the position of one reference cursor: the text
    of the loop over the formats is the concatenation of what each format
    gives from the reference cursor. *)
Lemma read_formats_shared st0 fs : forall ss w,
  Forall (fun s => same_pos (s, w) st0) ss ->
  length ss = length fs ->
  text_of (read_formats esc bo fs ss w)
  = fold_right String.append ""
      (map (fun f => text_of (read_format esc bo f st0)) fs).
Proof.
  destruct st0 as [s0 w0].
  induction fs as [|f fs IH]; intros ss w H Hl.
  - destruct ss; reflexivity.
  - destruct ss as [|s ss]; [discriminate|]. inversion H; subst. simpl.
    destruct (par_read_format bo esc f s w s0 w0 ltac:(assumption))
      as (a & s1 & k & s1' & k' & E & E' & Hp & Hd).
    rewrite E, E'. simpl.
    assert (H' : Forall (fun s => same_pos (s, advance w k) (s0, w0)) ss).
    { eapply Forall_impl; [|eassumption]. intros x Hx.
      now apply same_pos_advance_l. }
    specialize (IH ss (advance w k) H' ltac:(simpl in Hl; lia)).
    destruct (read_formats_good esc bo fs ss (advance w k))
      as (rs & ss2 & k2 & E2 & _).
    { eapply Forall_impl; [|exact H']. intros x Hx. apply Hx. }
    rewrite E2 in *. simpl in *. now rewrite IH.
Qed.

(** Two lists of cursors, pairwise at the same positions, give the same
    text and end pairwise at the same positions. *)
Lemma read_formats_par fs : forall ss ss' w w',
  window w -> window w' -> incoming (ser w) = incoming (ser w') ->
  Forall2 (fun s s' => same_pos (s, w) (s', w')) ss ss' ->
  exists text ss1 k ss1' k',
    read_formats esc bo fs ss w = Ok (text, (ss1, advance w k)) /\
    read_formats esc bo fs ss' w' = Ok (text, (ss1', advance w' k')) /\
    Forall2 (fun s s' => same_pos (s, advance w k) (s', advance w' k')) ss1 ss1'.
Proof.
  induction fs as [|f fs IH]; intros ss ss' w w' W W' I H.
  - exists "", ss, 0%nat, ss', 0%nat. rewrite !advance_0.
    split; [now destruct ss|]. split; [now destruct ss'|]. exact H.
  - destruct H as [|s s' ss ss' Hs H].
    + exists "", [], 0%nat, [], 0%nat. rewrite !advance_0.
      repeat split. constructor.
    + destruct (par_read_format bo esc f s w s' w' Hs)
        as (a & s1 & k & s1' & k' & E & E' & Hp & Hd).
      assert (H' : Forall2 (fun x x' => same_pos (x, advance w k)
                                                 (x', advance w' k')) ss ss').
      { eapply Forall2_impl; [|exact H]. intros x x' Hx.
        apply (same_pos_step x w x' w' x k x' k' Hx); lia. }
      destruct (IH ss ss' (advance w k) (advance w' k')
                  (window_advance _ _ W) (window_advance _ _ W') I H')
        as (rs & ss2 & k2 & ss2' & k2' & F & F' & H2).
      exists (a ++ rs)%string, (s1 :: ss2), (k + k2)%nat,
        (s1' :: ss2'), (k' + k2')%nat.
      simpl. rewrite E, E', F, F'. rewrite !advance_advance in *.
      split; [reflexivity|]. split; [reflexivity|]. constructor; [|exact H2].
      pose proof (same_pos_step s w s' w' s1 k s1' k' Hs Hp Hd) as H1.
      rewrite <- !advance_advance.
      apply (same_pos_step s1 _ s1' _ s1 k2 s1' k2' H1); lia.
Qed.

End Together.

(** X16: in a round that starts with every cursor at 0 on a window of the
    device (every round of a synchronized session), with one cursor per
    format, the chunk written is the concatenation, in order, of what each
    format alone gives from offset 0 on the wrapper as the round found it:
    all formats decode the same reads from the same origin. *)
Theorem round_text_from_common_origin (se : Session) :
  window (sw se) ->
  Forall (fun s => ptr s = 0) (streams se) ->
  length (streams se) = length (formats se) ->
  exists se',
    read se
    = Ok (fold_right String.append ""
            (map (fun f => text_of (read_format (escape se) (byteorder se) f
                                                (mkStream 0, sw se)))
                 (formats se)),
          se').
Proof.
  intros W H0 Hl.
  assert (Hn : Forall (fun s => 0 <= ptr s) (streams se)).
  { eapply Forall_impl; [|exact H0]. simpl. intros. lia. }
  destruct (read_formats_good (escape se) (byteorder se) (formats se)
              (streams se) (sw se) Hn) as (text & ss & k & E & _).
  pose proof (read_formats_shared (escape se) (byteorder se)
                (mkStream 0, sw se) (formats se) (streams se) (sw se)) as T.
  rewrite E in T. simpl in T. rewrite <- T; [|  | exact Hl].
  - eexists. apply (read_unfold _ _ _ _ E).
  - eapply Forall_impl; [|exact H0]. intros s Hs.
    unfold same_pos, position. simpl. rewrite Hs.
    repeat split; try assumption; try lia; apply W.
Qed.

Lemma round_text_from_common_origin_two_formats :
  let se := Session_init (fresh [Some x41; Some x42; Some x43; Some x44])
                         "%" big (Some ["%a"; "%a%a%a"]) false in
  exists se',
    read se
    = Ok (fold_right String.append ""
            (map (fun f => text_of (read_format (escape se) (byteorder se) f
                                                (mkStream 0, sw se)))
                 (formats se)),
          se').
Proof.
  apply (round_text_from_common_origin
           (Session_init (fresh [Some x41; Some x42; Some x43; Some x44])
                         "%" big (Some ["%a"; "%a%a%a"]) false)).
  - apply window_empty. reflexivity.
  - simpl. repeat constructor.
  - reflexivity.
Defined.

(* ================================================================== *)
(** ** Buffered mode: each format as if alone *)

Lemma read_formats_within esc bo fs ss w text ss' w' :
  window w ->
  Forall (fun s => 0 <= ptr s <= len w) ss ->
  read_formats esc bo fs ss w = Ok (text, (ss', w')) ->
  window w' /\ incoming (ser w') = incoming (ser w) /\
  base w' = base w /\
  Forall (fun s => 0 <= ptr s <= len w') ss'.
Proof.
  intros W H0 E.
  assert (Hn : Forall (fun s => 0 <= ptr s) ss).
  { eapply Forall_impl; [|exact H0]. simpl. intros. lia. }
  assert (Hin : Forall (fun s => ptr s <= len w) ss).
  { eapply Forall_impl; [|exact H0]. simpl. intros. lia. }
  destruct (read_formats_good esc bo fs ss w Hn) as (t & ss1 & k & E1 & Hp & Hl).
  rewrite E1 in E. inversion E; subst. specialize (Hl Hin).
  split; [now apply window_advance|]. split; [reflexivity|].
  split; [apply base_advance|].
  pose proof (Forall2_ptr_nonneg _ _ Hn Hp) as Hn'.
  pose proof (max_ptr_ge ss') as Hge.
  rewrite Forall_forall in *. intros s Hs.
  specialize (Hn' s Hs). specialize (Hge s Hs). simpl in Hge. lia.
Qed.

(** The buffered reconciliation keeps every cursor at its position. *)
Lemma reconcile_true_positions ss w :
  window w ->
  Forall (fun s => 0 <= ptr s <= len w) ss ->
  let m := or0 (minInd ss) in
  let w' := snd (reconcile true ss w) in
  fst (reconcile true ss w) = map (fun s => mkStream (ptr s - m)) ss /\
  window w' /\ incoming (ser w') = incoming (ser w) /\
  (forall s, position w' (mkStream (ptr s - m)) = position w s) /\
  Forall (fun s => 0 <= ptr s <= len w') (map (fun s => mkStream (ptr s - m)) ss).
Proof.
  intros W H0. cbn zeta.
  destruct (or0_minInd ss) as (Hm & Hmin).
  assert (Hm0 : 0 <= or0 (minInd ss) <= len w).
  { destruct Hmin as [->|Hmin]; [simpl; pose proof (len_nonneg w); lia|].
    apply in_map_iff in Hmin. destruct Hmin as (s & Es & Hs).
    rewrite Forall_forall in H0. specialize (H0 s Hs). lia. }
  change (snd (reconcile true ss w)) with (pop (minInd ss) w).
  destruct (window_pop_opt (minInd ss) w Hm0 W) as (W' & B & I).
  destruct (pop_count (minInd ss) w Hm0) as (_ & Pl & _).
  split; [apply reconcile_streams|]. split; [exact W'|]. split; [exact I|].
  split.
  - intros s. unfold position. simpl. lia.
  - rewrite Forall_map. rewrite Forall_forall in *. intros s Hs. simpl.
    specialize (Hm s Hs). specialize (H0 s Hs). simpl in Hm. lia.
Qed.

Lemma Forall2_map_both {A B C D} (R : C -> D -> Prop) (g : A -> C) (g' : B -> D)
    l l' :
  Forall2 (fun a b => R (g a) (g' b)) l l' -> Forall2 R (map g l) (map g' l').
Proof. induction 1; simpl; constructor; assumption. Qed.

Lemma same_pos_of s w s' w' :
  window w -> window w' -> incoming (ser w) = incoming (ser w') ->
  0 <= ptr s -> 0 <= ptr s' -> position w s = position w' s' ->
  same_pos (s, w) (s', w').
Proof. unfold same_pos. simpl. tauto. Qed.

(** One round of the three sessions. *)
Lemma split_off_step M S T :
  split_off M S T ->
  exists tS tT M' S' T',
    read M = Ok ((tS ++ tT)%string, M') /\
    read S = Ok (tS, S') /\
    read T = Ok (tT, T') /\
    split_off M' S' T'.
Proof.
  intros ((BM & WM & HM) & (BS & WS & HS) & (BT & WT & HT)
          & EeS & EeT & EbS & EbT & IS & IT
          & f & fs & s & ss & sS & FM & FS & FT & SM & SS & Ps & Pss).
  pose proof HM as HM0. pose proof HS as HS0.
  rewrite SM in HM0. rewrite SS in HS0.
  pose proof (Forall_inv HM0) as Hs. pose proof (Forall_inv_tail HM0) as Hss.
  pose proof (Forall_inv HS0) as HsS. simpl in Hs, HsS.
  (* the first format, on both sides *)
  assert (Hsame : same_pos (s, sw M) (sS, sw S))
    by (apply same_pos_of; try assumption; try lia; now symmetry).
  destruct (par_read_format (byteorder M) (escape M) f _ _ _ _ Hsame)
    as (a & s1 & k & sS1 & kS & E & E' & Hp & Hd).
  pose proof (same_pos_step _ _ _ _ s1 k sS1 kS Hsame Hp Hd) as Hsame1.
  (* the other formats, on both sides *)
  assert (Htail : Forall2 (fun x xT => same_pos (x, advance (sw M) k) (xT, sw T))
                          ss (streams T)).
  { clear - Pss Hss HT WM WT IT. revert Hss HT.
    induction Pss as [|x xT l lT Hx Hl IH]; intros Hss HT; [constructor|].
    pose proof (Forall_inv Hss) as Hx1. pose proof (Forall_inv HT) as Hx2.
    simpl in Hx1, Hx2.
    constructor;
      [|apply IH; [exact (Forall_inv_tail Hss) | exact (Forall_inv_tail HT)]].
    apply same_pos_advance_l.
    apply same_pos_of; try assumption; try lia. now symmetry. }
  destruct (read_formats_par (escape M) (byteorder M) fs ss (streams T)
              (advance (sw M) k) (sw T)
              (window_advance _ _ WM) WT ltac:(now symmetry) Htail)
    as (rs & ss2 & k2 & ssT2 & kT2 & F & F' & H2).
  (* the three loops *)
  assert (RM : read_formats (escape M) (byteorder M) (formats M) (streams M) (sw M)
               = Ok ((a ++ rs)%string, (s1 :: ss2, advance (advance (sw M) k) k2))).
  { rewrite FM, SM. simpl. now rewrite E, F. }
  assert (RS : read_formats (escape S) (byteorder S) (formats S) (streams S) (sw S)
               = Ok ((a ++ "")%string, ([sS1], advance (sw S) kS))).
  { rewrite FS, SS, EeS, EbS. simpl. now rewrite E'. }
  assert (RT : read_formats (escape T) (byteorder T) (formats T) (streams T) (sw T)
               = Ok (rs, (ssT2, advance (sw T) kT2))).
  { rewrite FT, EeT, EbT. exact F'. }
  (* cursors within the buffers before the reconciliations *)
  destruct (read_formats_within _ _ _ _ _ _ _ _ WM HM RM) as (WM2 & IM2 & _ & HM2).
  destruct (read_formats_within _ _ _ _ _ _ _ _ WS HS RS) as (WS2 & IS2 & _ & HS2).
  destruct (read_formats_within _ _ _ _ _ _ _ _ WT HT RT) as (WT2 & IT2 & _ & HT2).
  destruct (reconcile_true_positions _ _ WM2 HM2) as (GM & WM3 & IM3 & PM & HM3).
  destruct (reconcile_true_positions _ _ WS2 HS2) as (GS & WS3 & IS3 & PS & HS3).
  destruct (reconcile_true_positions _ _ WT2 HT2) as (GT & WT3 & IT3 & PT & HT3).
  (* the first cursor, lifted over the other formats' reads *)
  assert (Hsame2 : same_pos (s1, advance (advance (sw M) k) k2)
                            (sS1, advance (sw S) kS)).
  { now apply same_pos_advance_l. }
  exists (a ++ "")%string, rs. eexists. eexists. eexists.
  split; [rewrite append_nil_r; apply (read_unfold _ _ _ _ RM)|].
  split; [apply (read_unfold _ _ _ _ RS)|].
  split; [apply (read_unfold _ _ _ _ RT)|].
  rewrite BM, BS, BT, GM, GS, GT.
  unfold split_off, well. cbn [sw escape byteorder formats buffer streams].
  split; [split; [reflexivity | split; [exact WM3 | exact HM3]]|].
  split; [split; [reflexivity | split; [exact WS3 | exact HS3]]|].
  split; [split; [reflexivity | split; [exact WT3 | exact HT3]]|].
  do 4 (split; [assumption|]).
  split; [rewrite IS3, IM3; simpl; exact IS|].
  split; [rewrite IT3, IM3; simpl; exact IT|].
  exists f, fs. eexists. eexists. eexists.
  split; [exact FM|]. split; [exact FS|]. split; [exact FT|].
  split; [reflexivity|]. split; [reflexivity|]. split.
  - rewrite PM, PS. apply Hsame2.
  - apply Forall2_map_both. eapply Forall2_impl; [|exact H2].
    intros x xT Hx. rewrite PM, PT. apply Hx.
Qed.

Lemma split_off_rounds n : forall M S T,
  split_off M S T ->
  exists lS lT M' S' T',
    rounds n M = Ok (merge lS lT, M') /\
    rounds n S = Ok (lS, S') /\
    rounds n T = Ok (lT, T').
Proof.
  induction n as [|n IH]; intros M S T H; simpl.
  - exists [], [], M, S, T. repeat split.
  - destruct (split_off_step M S T H)
      as (tS & tT & M1 & S1 & T1 & RM & RS & RT & H1).
    rewrite RM, RS, RT.
    destruct (IH M1 S1 T1 H1) as (lS & lT & M2 & S2 & T2 & QM & QS & QT).
    rewrite QM, QS, QT.
    exists (tS :: lS), (tT :: lT), M2, S2, T2. repeat split.
Qed.

(** X17: in buffered mode the formats do not disturb each other: on a
    window of the device (a new wrapper), the chunks of a session with
    formats f, f1, ..., fk are, round by round, the chunk of a session with
    the only format f followed by the chunk of a session with the formats
    f1, ..., fk, all three from the same wrapper.  So every format decodes
    the whole stream, as if it were alone. *)
Theorem buffered_formats_independent (w : SerialWrapper) (esc : ascii)
    (bo : byte_order) (f : string) (fs : list string) (n : nat) :
  window w ->
  exists lf lfs,
    lines_of (rounds n (Session_init w esc bo (Some [f]) true)) = Ok lf /\
    lines_of (rounds n (Session_init w esc bo (Some fs) true)) = Ok lfs /\
    lines_of (rounds n (Session_init w esc bo (Some (f :: fs)) true))
      = Ok (merge lf lfs).
Proof.
  intros W.
  assert (Z0 : forall l : list string,
             Forall (fun s => 0 <= ptr s <= len w)
                    (map (fun _ => mkStream 0) l)).
  { intros l. rewrite Forall_map. apply Forall_forall. intros x _. simpl.
    pose proof (len_nonneg w). lia. }
  assert (H : split_off (Session_init w esc bo (Some (f :: fs)) true)
                        (Session_init w esc bo (Some [f]) true)
                        (Session_init w esc bo (Some fs) true)).
  { unfold split_off, well, Session_init.
    cbn [sw escape byteorder formats buffer streams].
    split; [split; [reflexivity | split; [exact W | apply Z0]]|].
    split; [split; [reflexivity | split; [exact W | apply Z0]]|].
    split; [split; [reflexivity | split; [exact W | apply Z0]]|].
    do 6 (split; [reflexivity|]).
    exists f, fs, (mkStream 0), (map (fun _ => mkStream 0) fs), (mkStream 0).
    do 6 (split; [reflexivity|]).
    apply Forall2_map_both. clear. induction fs; constructor; auto. }
  destruct (split_off_rounds n _ _ _ H) as (lS & lT & M' & S' & T' & QM & QS & QT).
  exists lS, lT. rewrite QM, QS, QT. repeat split.
Qed.

Lemma buffered_formats_independent_two :
  exists lf lfs,
    lines_of (rounds 3 (Session_init (fresh [Some x41; Some x42; Some x43])
                                     "%" big (Some ["%a"]) true)) = Ok lf /\
    lines_of (rounds 3 (Session_init (fresh [Some x41; Some x42; Some x43])
                                     "%" big (Some ["%h%h"]) true)) = Ok lfs /\
    lines_of (rounds 3 (Session_init (fresh [Some x41; Some x42; Some x43])
                                     "%" big (Some ["%a"; "%h%h"]) true))
      = Ok (merge lf lfs).
Proof.
  apply (buffered_formats_independent (fresh [Some x41; Some x42; Some x43])
           "%" big "%a" ["%h%h"] 3).
  apply window_empty. reflexivity.
Defined.

(* ================================================================== *)
(** ** What the handlers print *)

Lemma all_from_spec ok count : forall z n,
  all_from ok count z = true ->
  z <= n < z + Z.of_nat count -> ok n = true.
Proof.
  induction count as [|c IH]; intros z n H Hn; [lia|].
  simpl in H. apply andb_true_iff in H. destruct H as [H1 H2].
  destruct (Z.eq_dec n z) as [->|Hne]; [exact H1|].
  apply (IH (z + 1)); [exact H2 | lia].
Qed.

Lemma word_ok_all : all_from (fun a => all_from (word_ok a) 256 0) 256 0 = true.
Proof. vm_compute. reflexivity. Qed.

Lemma lor_shift_bytes a b :
  0 <= a <= 255 -> 0 <= b <= 255 ->
  Z.lor (Z.shiftl a 8) b = 256 * a + b.
Proof.
  intros Ha Hb.
  pose proof (all_from_spec _ _ 0 a word_ok_all ltac:(lia)) as H.
  pose proof (all_from_spec _ _ 0 b H ltac:(lia)) as H'.
  now apply Z.eqb_eq in H'.
Qed.

Lemma str_ok_byte : all_from (str_ok 3) 256 0 = true.
Proof. vm_compute. reflexivity. Qed.

Lemma str_ok_word : all_from (str_ok 5) (Z.to_nat 65536) 0 = true.
Proof. vm_compute. reflexivity. Qed.

Lemma str_length bound count n :
  all_from (str_ok bound) count 0 = true ->
  0 <= n < Z.of_nat count ->
  (1 <= String.length (str n) <= bound)%nat.
Proof.
  intros H Hn. pose proof (all_from_spec _ _ 0 n H ltac:(lia)) as H'.
  unfold str_ok in H'. apply andb_true_iff in H'. destruct H' as [H1 H2].
  apply Nat.leb_le in H1, H2. lia.
Qed.

Lemma rendering_lengths n :
  0 <= n <= 255 ->
  String.length (intToHex n) = 2%nat /\ String.length (intToBin n) = 8%nat.
Proof.
  intros Hn. pose proof rendering_ok_all as H. rewrite forallb_forall in H.
  specialize (H (Z.to_nat n) ltac:(apply in_seq; lia)).
  unfold rendering_ok in H. rewrite Z2Nat.id in H by lia.
  rewrite !andb_true_iff in H. destruct H as [[[H1 H2] _] _].
  apply Nat.eqb_eq in H1, H2. now split.
Qed.

(** X18: for any two reads the word handler ('d') prints the decimal of
    256 times the value of the first plus the value of the second (a
    timeout counting as 0), a number from 0 to 65535, under either byte
    order. *)
Theorem word_handler_value (bo : byte_order) (cb : ascii -> M string)
    (st st1 st2 : St) (first second : read1) :
  stream_read st = Ok (first, st1) ->
  stream_read st1 = Ok (second, st2) ->
  process bo cb IntegerWordEscapeHandler st
    = Ok (str (256 * byteToInt bo first + byteToInt bo second), st2) /\
  0 <= 256 * byteToInt bo first + byteToInt bo second <= 65535.
Proof.
  intros E1 E2.
  pose proof (byteToInt_range bo first). pose proof (byteToInt_range bo second).
  split; [|lia]. unfold process, bind. rewrite E1, E2.
  unfold ret. now rewrite lor_shift_bytes.
Qed.

Lemma word_handler_value_timeout :
  let w := fresh [Some x03; None] in
  process little (fun _ => ret "") IntegerWordEscapeHandler (mkStream 0, w)
    = Ok (str (256 * byteToInt little (Some x03) + byteToInt little None),
          (mkStream 2, advance w 2)) /\
  0 <= 256 * byteToInt little (Some x03) + byteToInt little None <= 65535.
Proof.
  apply (word_handler_value little _ _
           (mkStream 1, advance (fresh [Some x03; None]) 1)); reflexivity.
Defined.

(** X19: whatever is read, the texts of the handlers have fixed or bounded
    lengths: b prints 8 characters, h prints 2, a, n and t print 1, x prints
    none, i prints 1 to 3 and d prints 1 to 5. *)
Theorem handler_text_widths (bo : byte_order) (cb : ascii -> M string)
    (h : EscapeHandler) (st st' : St) (text : string) :
  process bo cb h st = Ok (text, st') ->
  text_width_ok h text.
Proof.
  intros E. unfold text_width_ok.
  destruct h; unfold process, bind, ret in E; try exact I;
    try (inversion E; reflexivity);
    destruct (stream_read st) as [[b1 st1]|e]; try discriminate;
    pose proof (byteToInt_range bo b1) as R1.
  - inversion E; subst. now apply rendering_lengths.
  - inversion E; subst. now apply rendering_lengths.
  - inversion E; subst. apply (str_length 3 256 _ str_ok_byte). lia.
  - destruct (stream_read st1) as [[b2 st2]|e]; [|discriminate].
    pose proof (byteToInt_range bo b2) as R2.
    rewrite lor_shift_bytes in E by assumption.
    assert (Ht : text = str (256 * byteToInt bo b1 + byteToInt bo b2))
      by congruence.
    rewrite Ht. apply (str_length 5 (Z.to_nat 65536) _ str_ok_word). lia.
  - inversion E; subst. reflexivity.
  - inversion E; subst. reflexivity.
Qed.

Lemma handler_text_widths_hex :
  text_width_ok HexByteEscapeHandler "05".
Proof.
  apply (handler_text_widths big (fun _ => ret "") HexByteEscapeHandler
           (mkStream 0, fresh [Some x05])
           (mkStream 1, advance (fresh [Some x05]) 1) "05").
  reflexivity.
Defined.

(* ================================================================== *)
(** ** Templates compose at an escape character *)

Section Compose.

Variables (esc : ascii) (bo : byte_order).

Lemma split_app_sep f g :
  split esc (f ++ String esc g) = (split esc f ++ split esc g)%list.
Proof.
  induction f as [|c f IH]; simpl.
  - now rewrite Ascii.eqb_refl.
  - destruct (Ascii.eqb c esc); rewrite IH; [reflexivity|].
    pose proof (split_nonempty esc f).
    destruct (split esc f); [congruence | reflexivity].
Qed.

Lemma read_tokens_app l1 l2 : forall st,
  read_tokens esc bo (l1 ++ l2)%list st =
  (r1 <- read_tokens esc bo l1 ;;
   r2 <- read_tokens esc bo l2 ;;
   ret (r1 ++ r2)%string) st.
Proof.
  induction l1 as [|t l1 IH]; intros st; simpl; unfold bind, ret.
  - destruct (read_tokens esc bo l2 st) as [[r st1]|e]; reflexivity.
  - destruct (read_token esc bo t st) as [[r0 st1]|e]; [|reflexivity].
    rewrite IH. unfold bind, ret.
    destruct (read_tokens esc bo l1 st1) as [[r1 st2]|e]; [|reflexivity].
    destruct (read_tokens esc bo l2 st2) as [[r2 st3]|e]; [|reflexivity].
    now rewrite append_assoc.
Qed.

Lemma read_format_sep g st :
  read_format esc bo (String esc g) st = read_tokens esc bo (split esc g) st.
Proof.
  unfold read_format. cbn [split]. rewrite Ascii.eqb_refl. cbn [tl hd].
  unfold bind, ret.
  destruct (read_tokens esc bo (split esc g) st) as [[r st1]|e]; reflexivity.
Qed.

End Compose.

(** X20: processing a template that continues, after a prefix, with an
    escape character is processing the prefix and then the rest as a
    template of its own, on the state the prefix left, the texts
    concatenated; an exception of either is the exception of the whole. *)
Theorem template_composition (esc : ascii) (bo : byte_order) (f g : string)
    (st : St) :
  read_format esc bo (f ++ String esc g) st =
  (r1 <- read_format esc bo f ;;
   r2 <- read_format esc bo (String esc g) ;;
   ret (r1 ++ r2)%string) st.
Proof.
  unfold read_format at 1 2. rewrite split_app_sep.
  pose proof (split_nonempty esc f).
  destruct (split esc f) as [|t0 toks]; [congruence|]. cbn [tl hd app].
  unfold bind at 1. rewrite read_tokens_app. unfold bind, ret.
  destruct (read_tokens esc bo toks st) as [[r1 st1]|e]; [|reflexivity].
  rewrite read_format_sep.
  destruct (read_tokens esc bo (split esc g) st1) as [[r2 st2]|e];
    [|reflexivity].
  now rewrite append_assoc.
Qed.

(* ================================================================== *)
(** ** No cursor goes back *)





